(** * Periwinkle Auctions: the bidding core, verified against its specification

    A shallow embedding of the bidding rules (bid validation, anti-sniping),
    the in-memory event emitter with the SSE route and the client hook around
    it, the formatting helpers and the route-protecting middleware, followed
    by the properties the specification states about them and by further
    properties of the code.

    Conventions of the embedding:
    - a price of the code is a [number], an IEEE 754 binary64 value
      ([PrimFloat.float]), added and compared as the hardware does; the ledger
      of the specification counts money exactly ([Z], in cents, as the
      DECIMAL(10,2) columns hold it); the auction record and [validateBid]
      are written once for both; amounts that are only stored and passed on
      (bids, events, the hook) are exact;
    - a point in time is [Date.getTime()], milliseconds since the epoch ([Z]);
      the clock ([new Date()]) is an explicit argument [now];
    - [throw new BidError(..)] is the left injection of [Throws];
    - a listener (a function object compared by identity) is a [Listener]
      number; calling it is recorded in a call log, with how the call ended;
      what a listener does when called is not the emitter's code, so every
      [emit] is given the listeners that throw when it calls them; a listener
      does not call back into the emitter;
    - [Map<string, Set<Listener>>] is a [gmap string (list Listener)], the list
      being the set in insertion order;
    - a character of a [string] stands for one UTF-16 code unit, and the
      Unicode tables (white space, upper-casing) and [JSON.stringify] are
      arguments of the functions that use them. *)

From Stdlib Require Import Floats.
From Stdlib Require Import ZArith Ascii String List Lia DecimalString.
From stdpp Require Import base option list sorting gmap strings.

Local Open Scope Z_scope.

(** ** Numbers

    The prices of the code are TypeScript [number]s, and [validateBid] adds
    and compares them with [+] and [<] of that type: IEEE 754 binary64
    arithmetic, rounding to nearest. The ledger of the specification counts
    money exactly. The auction and the bidding rules are therefore written
    once, over a type of amounts with the two operations the code uses, and
    read at either arithmetic. *)

Class Number (T : Type) := {
  (** [x + y] *)
  num_add : T -> T -> T;
  (** [x < y] *)
  num_lt : T -> T -> bool
}.

(** The [number] of the code: a binary64 value, with the addition and the
    comparison of the hardware. *)
Definition number : Type := PrimFloat.float.

#[global] Instance number_Number : Number number :=
  {| num_add := PrimFloat.add; num_lt := PrimFloat.ltb |}.

(** Exact amounts, as the DECIMAL(10,2) columns hold them, counted in
    cents. *)
#[global] Instance Z_Number : Number Z :=
  {| num_add := Z.add; num_lt := Z.ltb |}.

(** ** Data model (prisma schema, [types/index.ts]) *)

Module Status.
(** [CREATE TYPE "AuctionStatus" AS ENUM (...)] *)
Inductive t := DRAFT | SCHEDULED | ACTIVE | ENDED | SOLD | CANCELLED.

#[global] Instance eq_dec : EqDecision t.
Proof. solve_decision. Defined.
End Status.

(** [CREATE TYPE "Role" AS ENUM ('USER', 'ADMIN')] *)
Inductive Role := USER | ADMIN.

#[global] Instance Role_eq_dec : EqDecision Role.
Proof. solve_decision. Defined.

Module Auction.
(** The [auctions] table. [duration] is not one of its columns: it is what
    [maybeExtendAuction] reads from the auction next to [startTime], here in
    the unit in which that function adds it to a time, milliseconds (the
    create form and [DURATIONS] count days). The prices are of the type [T]
    of amounts. *)
Record t {T : Type} := mk {
  id : string;
  sellerId : string;
  status : Status.t;
  startingPrice : T;
  currentPrice : T;
  reservePrice : option T;
  bidIncrement : T;
  startTime : Z;
  duration : Z;
  endTime : Z;
  winnerId : option string
}.
Arguments t : clear implicits.
End Auction.
(** The auction as the ledger holds it, its prices exact; the auction the
    code computes with is an [Auction.t number]. *)
Abbreviation Auction := (Auction.t Z).

Module Bid.
(** The [bids] table. *)
Record t := mk {
  id : string;
  amount : Z;
  createdAt : Z;
  auctionId : string;
  bidderId : string
}.
End Bid.
Abbreviation Bid := Bid.t.

Module SessionUser.
(** [interface SessionUser] *)
Record t := mk {
  id : string;
  email : string;
  name : string;
  role : Role
}.
End SessionUser.
Abbreviation SessionUser := SessionUser.t.

Module BidEvent.
(** [interface BidEvent], the payload of the SSE event [bid]; the nested
    objects [bidder] and [auction] are flattened. *)
Record t := mk {
  id : string;
  amount : Z;
  createdAt : Z;
  bidder_id : string;
  bidder_name : string;
  auction_currentPrice : Z;
  auction_endTime : Z
}.
End BidEvent.
Abbreviation BidEvent := BidEvent.t.

Module StatusEvent.
(** [interface StatusEvent] *)
Record t := mk {
  status : string;
  winnerId : option string
}.
End StatusEvent.
Abbreviation StatusEvent := StatusEvent.t.

(** ** Constants ([lib/constants.ts]) *)

Module ANTI_SNIPING.
Definition WINDOW_MS : Z := 2 * 60 * 1000.
Definition EXTENSION_MS : Z := 2 * 60 * 1000.
Definition MAX_EXTENSION_MS : Z := 30 * 60 * 1000.
End ANTI_SNIPING.

(** ** Bid validation ([validateBid], docs/features/BIDDING.md) *)

(** [new BidError(code, { minBid })]; the minimum is an amount. *)
Inductive BidErrorOf {T : Type} :=
  | AUTH_REQUIRED
  | OWN_AUCTION
  | NOT_ACTIVE
  | ENDED
  | TOO_LOW (minBid : T).
Arguments BidErrorOf : clear implicits.

Abbreviation BidError := (BidErrorOf Z).

#[global] Instance BidError_eq_dec `{EqDecision T} : EqDecision (BidErrorOf T).
Proof. solve_decision. Defined.

(** Code that may throw a [BidError]: [inl e] is a throw, [inr v] a normal
    completion. *)
Definition ThrowsOf (T A : Type) : Type := (BidErrorOf T + A)%type.

Abbreviation Throws := (ThrowsOf Z).

#[global] Instance Throws_ret {T} : MRet (ThrowsOf T) := fun A v => inr v.
#[global] Instance Throws_bind {T} : MBind (ThrowsOf T) := fun A B k s =>
  match s with
  | inl e => inl e
  | inr v => k v
  end.
#[global] Instance Throws_throw {T} : MThrow (BidErrorOf T) (ThrowsOf T) :=
  fun A e => inl e.

(** [if (c) throw new BidError(e);] *)
Definition throw_if {T} (c : bool) (e : BidErrorOf T) : ThrowsOf T unit :=
  if c then mthrow e else mret tt.

(** JS truthiness of a [string | undefined]: [undefined] and [''] are falsy. *)
Definition truthy (userId : option string) : bool :=
  match userId with
  | Some s => negb (String.eqb s "")
  | None => false
  end.

(** [sellerId === userId] *)
Definition strict_eq (s : string) (userId : option string) : bool :=
  match userId with
  | Some u => String.eqb s u
  | None => false
  end.

Definition validateBid `{Number T} (auction : Auction.t T) (bidAmount : T)
    (userId : option string) (now : Z) : ThrowsOf T unit :=
  (* Must be authenticated *)
  throw_if (negb (truthy userId)) AUTH_REQUIRED ;;
  (* Cannot bid on own auction *)
  throw_if (strict_eq (Auction.sellerId auction) userId) OWN_AUCTION ;;
  (* Auction must be active *)
  throw_if (negb (bool_decide (Auction.status auction = Status.ACTIVE))) NOT_ACTIVE ;;
  (* Auction must not be ended *)
  throw_if (now >? Auction.endTime auction) ENDED ;;
  (* Bid must meet minimum *)
  let minBid := num_add (Auction.currentPrice auction) (Auction.bidIncrement auction) in
  throw_if (num_lt bidAmount minBid) (TOO_LOW minBid).

(** *** The admission contract, in the specification's words

    the contract of section 4.1, [Accepted | Rejected(reason)]:
    an ordered list of checks, the first failure wins. *)

Inductive Admission {T : Type} := Accepted | Rejected (reason : BidErrorOf T).
Arguments Admission : clear implicits.

(** "present and resolvable" *)
Definition present (bidderId : option string) : Prop :=
  exists u, bidderId = Some u /\ u <> ""%string.

#[global] Instance present_dec bidderId : Decision (present bidderId).
Proof.
  destruct bidderId as [u|].
  - destruct (decide (u = ""%string)) as [->|Hne].
    + right. intros (u & Hu & Hne). congruence.
    + left. exists u. split; [reflexivity | exact Hne].
  - right. intros (u & Hu & _). discriminate.
Defined.

(** Each entry: does the check fail, and with which reason. *)
Definition admission_checks `{Number T} (auction : Auction.t T)
    (bidderId : option string) (amount : T) (now : Z)
    : list (bool * BidErrorOf T) :=
  let minimum := num_add (Auction.currentPrice auction) (Auction.bidIncrement auction) in
  [ (bool_decide (~ present bidderId), AUTH_REQUIRED);
    (bool_decide (bidderId = Some (Auction.sellerId auction)), OWN_AUCTION);
    (bool_decide (Auction.status auction <> Status.ACTIVE), NOT_ACTIVE);
    (bool_decide (now > Auction.endTime auction), ENDED);
    (num_lt amount minimum, TOO_LOW minimum) ].

Fixpoint first_failure {T} (checks : list (bool * BidErrorOf T)) : Admission T :=
  match checks with
  | [] => Accepted
  | (failed, reason) :: rest =>
      if failed then Rejected reason else first_failure rest
  end.

Definition decide_admission `{Number T} (auction : Auction.t T)
    (bidderId : option string) (amount : T) (now : Z) : Admission T :=
  first_failure (admission_checks auction bidderId amount now).

(** What throwing code reports, read as an admission decision. *)
Definition outcome {T A} (r : ThrowsOf T A) : Admission T :=
  match r with
  | inl e => Rejected e
  | inr _ => Accepted
  end.

(** A bidder who may bid at all: the first four checks pass. *)
Definition eligible {T} (a : Auction.t T) (bidderId : option string) (now : Z) : Prop :=
  present bidderId /\
  bidderId <> Some (Auction.sellerId a) /\
  Auction.status a = Status.ACTIVE /\
  now <= Auction.endTime a.

(** All five checks pass. *)
Definition passes (a : Auction) (bidderId : option string) (amount now : Z) : Prop :=
  eligible a bidderId now /\
  amount >= Auction.currentPrice a + Auction.bidIncrement a.

(** ** Anti-sniping ([maybeExtendAuction], docs/features/BIDDING.md) *)

Definition maybeExtendAuction {T} (auction : Auction.t T) (now : Z) : Z :=
  let timeLeft := Auction.endTime auction - now in
  let twoMinutes := 2 * 60 * 1000 in
  let maxExtension := 30 * 60 * 1000 in
  if timeLeft <? twoMinutes then
    let originalEnd := Auction.startTime auction + Auction.duration auction in
    let maxEnd := originalEnd + maxExtension in
    let newEnd := now + twoMinutes in
    if newEnd >? maxEnd then maxEnd else newEnd
  else
    Auction.endTime auction.

(** The end time fixed at publish: what the code calls [originalEnd]. *)
Definition originalEndTime {T} (auction : Auction.t T) : Z :=
  Auction.startTime auction + Auction.duration auction.

(** *** The policy, in the specification's words

    [extend(auction, now)] with a window, a step and a cap. *)
Definition extend {T} (window step cap : Z) (auction : Auction.t T) (now : Z) : Z :=
  if bool_decide (Auction.endTime auction - now >= window) then
    Auction.endTime auction
  else
    let candidate := now + step in
    let maxEnd := originalEndTime auction + cap in
    Z.min candidate maxEnd.

(** ** Event emitter ([BidEmitter], docs/features/BIDDING.md) *)

(** A listener is a function object; the [Set] compares them by identity. *)
Definition Listener := nat.

(** [Set.prototype.add]: an element already present keeps its place. *)
Definition set_add (listener : Listener) (s : list Listener) : list Listener :=
  if bool_decide (listener ∈ s) then s else s ++ [listener].

(** [Set.prototype.delete]: nothing happens when the element is absent. *)
Definition set_delete (listener : Listener) (s : list Listener) : list Listener :=
  filter (fun l => l <> listener) s.

(** How a call ends: the callee returns, or it throws. *)
Inductive Completion := Returned | Thrown.

#[global] Instance Completion_eq_dec : EqDecision Completion.
Proof. solve_decision. Defined.

Section emitter.
(** What a listener is called with: the pair [(event, data)]. *)
Context {E : Type}.

(** One call of a listener: who was called, with what, and how the call
    ended. *)
Record Call := mkCall {
  callee : Listener;
  passed : E;
  ended : Completion
}.

Record BidEmitter := mkBidEmitter {
  (** [private listeners = new Map<string, Set<Listener>>()] *)
  listeners : gmap string (list Listener);
  (** every listener call made so far, oldest first *)
  calls : list Call
}.

(** [new BidEmitter()] *)
Definition new_BidEmitter : BidEmitter :=
  {| listeners := ∅; calls := [] |}.

(** The closure [subscribe] returns:
    [() => { this.listeners.get(auctionId)?.delete(listener); }] *)
Definition unsubscribe (auctionId : string) (listener : Listener)
    (em : BidEmitter) : BidEmitter :=
  match listeners em !! auctionId with
  | Some s =>
      {| listeners := <[auctionId := set_delete listener s]> (listeners em);
         calls := calls em |}
  | None => em
  end.

(** [subscribe(auctionId, listener)]: the emitter after the call, and the
    returned unsubscribe handle. *)
Definition subscribe (auctionId : string) (listener : Listener)
    (em : BidEmitter) : BidEmitter * (BidEmitter -> BidEmitter) :=
  let m :=
    if bool_decide (is_Some (listeners em !! auctionId)) then listeners em
    else <[auctionId := []]> (listeners em) in
  let m' :=
    match m !! auctionId with
    | Some s => <[auctionId := set_add listener s]> m
    | None => m
    end in
  ({| listeners := m'; calls := calls em |}, unsubscribe auctionId listener).

(** [Set.prototype.forEach(listener => { listener(event, data); })]: the
    listeners are called in insertion order, and since nothing catches, the
    first call that throws ends the iteration, the exception leaving
    [forEach]. What a listener does is not the emitter's code: [throws] tells
    which listeners throw when called in this round. The result is how
    [forEach] ends, and the calls it made. *)
Fixpoint forEach_call (throws : Listener -> bool) (s : list Listener) (ev : E)
    : Completion * list Call :=
  match s with
  | [] => (Returned, [])
  | listener :: rest =>
      if throws listener then (Thrown, [mkCall listener ev Thrown])
      else
        let '(c, round) := forEach_call throws rest ev in
        (c, mkCall listener ev Returned :: round)
  end.

(** [emit(auctionId, event, data)]: how the call ends (an exception leaves
    [emit] as it left [forEach]), and the emitter after it. *)
Definition emit (throws : Listener -> bool) (auctionId : string) (ev : E)
    (em : BidEmitter) : Completion * BidEmitter :=
  match listeners em !! auctionId with
  | Some s =>
      let '(c, round) := forEach_call throws s ev in
      (c, {| listeners := listeners em; calls := calls em ++ round |})
  | None => (Returned, em)
  end.

(** The current subscribers of an auction, in subscription order. *)
Definition subscribers (auctionId : string) (em : BidEmitter) : list Listener :=
  default [] (listeners em !! auctionId).

(** What one listener has been called with, oldest first. *)
Definition observed (listener : Listener) (log : list Call) : list E :=
  map passed (filter (fun c => callee c = listener) log).

(** What one listener has been called with and returned from. *)
Definition delivered (listener : Listener) (log : list Call) : list E :=
  map passed
    (filter (fun c => ended c = Returned) (filter (fun c => callee c = listener) log)).

(** How often a listener occurs in a run of calls. *)
Definition times_called (listener : Listener) (log : list Call) : nat :=
  length (filter (fun c => callee c = listener) log).

(** The operations of the emitter, to speak about sequences of them; an
    [Emit] comes with the listeners that throw when it calls them. *)
Inductive BusOp :=
  | Subscribe (auctionId : string) (listener : Listener)
  | Unsubscribe (auctionId : string) (listener : Listener)
  | Emit (auctionId : string) (ev : E) (throws : Listener -> bool).

Definition bus_step (em : BidEmitter) (op : BusOp) : BidEmitter :=
  match op with
  | Subscribe a l => fst (subscribe a l em)
  | Unsubscribe a l => unsubscribe a l em
  | Emit a ev throws => snd (emit throws a ev em)
  end.

Definition bus_run (ops : list BusOp) (em : BidEmitter) : BidEmitter :=
  fold_left bus_step ops em.

(** The events a sequence publishes to one auction, in publish order. *)
Fixpoint published (auctionId : string) (ops : list BusOp) : list E :=
  match ops with
  | [] => []
  | Emit a ev _ :: rest =>
      if bool_decide (a = auctionId) then ev :: published auctionId rest
      else published auctionId rest
  | _ :: rest => published auctionId rest
  end.

(** Every set of the map holds each listener at most once, as a [Set] does. *)
Definition emitter_wf (em : BidEmitter) : Prop :=
  forall a s, listeners em !! a = Some s -> NoDup s.

(** A sequence keeps [listener] subscribed to [auctionId] and publishes to
    no other auction. *)
Definition keeps_subscribed (auctionId : string) (listener : Listener)
    (op : BusOp) : Prop :=
  match op with
  | Subscribe _ _ => True
  | Unsubscribe a l => ~ (a = auctionId /\ l = listener)
  | Emit a _ _ => a = auctionId
  end.

(** An operation in which no listener throws. *)
Definition quiet (op : BusOp) : Prop :=
  match op with
  | Emit _ _ throws => forall listener, throws listener = false
  | _ => True
  end.


End emitter.

Arguments Call : clear implicits.
Arguments BidEmitter : clear implicits.
Arguments BusOp : clear implicits.

(** The payloads of the SSE stream: [event: bid], [event: status],
    [event: ping]. *)
Inductive SSEData :=
  | BidData (data : BidEvent)
  | StatusData (data : StatusEvent)
  | PingData.

(** [(event, data)] as the listeners receive it. *)
Definition SSE : Type := string * SSEData.

(** ** The ledger and the bid path

    The route handler [app/api/auctions/[id]/bids/route.ts] that calls
    [validateBid], [maybeExtendAuction] and [bidEmitter.emit] is not part of
    the sources; the three functions it is to call are. *)

(** Modelled from the spec: the Auction Ledger of section 3, the auction with
    its append-only bids (the route handler and its in-memory state are
    missing from the sources). *)
Record Ledger := mkLedger {
  auction : Auction;
  bids : list Bid
}.

(** One bid request as it enters the serialized section: the caller the
    identity provider resolved (if any), the amount, the time of entry and
    the identity the store gives the new row. *)
Record BidRequest := mkBidRequest {
  bidId : string;
  user : option SessionUser;
  amount : Z;
  now : Z
}.

(** [session?.user?.id] *)
Definition userId (req : BidRequest) : option string :=
  SessionUser.id <$> user req.

Definition set_price_and_end {T} (a : Auction.t T) (price : T) (newEnd : Z)
    : Auction.t T :=
  {| Auction.id := Auction.id a;
     Auction.sellerId := Auction.sellerId a;
     Auction.status := Auction.status a;
     Auction.startingPrice := Auction.startingPrice a;
     Auction.currentPrice := price;
     Auction.reservePrice := Auction.reservePrice a;
     Auction.bidIncrement := Auction.bidIncrement a;
     Auction.startTime := Auction.startTime a;
     Auction.duration := Auction.duration a;
     Auction.endTime := newEnd;
     Auction.winnerId := Auction.winnerId a |}.

(** Modelled from the spec: section 4.2, "On accepted bid:
    [currentPrice := amount]; ... end time recomputed via Anti-Sniping
    Policy", with the clamp [max(result, auction.endTime)] section 4.3 asks of
    the caller, and the bid appended (the apply step is missing from the
    sources). *)
Definition applyBid (ldg : Ledger) (bidder : SessionUser) (req : BidRequest)
    : Ledger * BidEvent :=
  let a := auction ldg in
  let newEnd := Z.max (maybeExtendAuction a (now req)) (Auction.endTime a) in
  let bid :=
    {| Bid.id := bidId req;
       Bid.amount := amount req;
       Bid.createdAt := now req;
       Bid.auctionId := Auction.id a;
       Bid.bidderId := SessionUser.id bidder |} in
  ({| auction := set_price_and_end a (amount req) newEnd;
      bids := bids ldg ++ [bid] |},
   {| BidEvent.id := bidId req;
      BidEvent.amount := amount req;
      BidEvent.createdAt := now req;
      BidEvent.bidder_id := SessionUser.id bidder;
      BidEvent.bidder_name := SessionUser.name bidder;
      BidEvent.auction_currentPrice := amount req;
      BidEvent.auction_endTime := newEnd |}).

(** The process state the bid path works on: one auction's ledger and the
    emitter singleton. *)
Record World := mkWorld {
  ledger : Ledger;
  bidEmitter : BidEmitter SSE
}.

(** Stateful code that may throw. As in JavaScript, a throw keeps whatever
    state the code before it has left behind. *)
Definition M (A : Type) : Type := World -> Throws A * World.

#[global] Instance M_ret : MRet M := fun A v w => (inr v, w).
#[global] Instance M_bind : MBind M := fun A B k m w =>
  match m w with
  | (inl e, w') => (inl e, w')
  | (inr v, w') => k v w'
  end.
#[global] Instance M_throw : MThrow BidError M := fun A e w => (inl e, w).

Definition get_ledger : M Ledger := fun w => (inr (ledger w), w).

Definition put_ledger (ldg : Ledger) : M unit := fun w =>
  (inr tt, {| ledger := ldg; bidEmitter := bidEmitter w |}).

(** Modelled from the spec: [publish] of section 4.5, made with
    [bidEmitter.emit(auctionId, event, data)]. "Subscriber-side errors ...
    are local to that subscriber and never surfaced to the bidder or to other
    subscribers" (section 7): no listener of the ledger's bus throws into the
    bid path. *)
Definition emit_event (auctionId event : string) (data : SSEData) : M unit :=
  fun w =>
    (inr tt, {| ledger := ledger w;
                bidEmitter :=
                  snd (emit (fun _ => false) auctionId (event, data) (bidEmitter w)) |}).

(** Pure throwing code run inside the stateful one. *)
Definition run_pure {A} (t : Throws A) : M A := fun w => (t, w).

(** Modelled from the spec: the control flow of section 2 inside the
    serialized section (admission, then ledger and policy, then publish);
    the route handler is missing from the sources. *)
Definition placeBid (req : BidRequest) : M BidEvent :=
  ldg ← get_ledger;
  run_pure (validateBid (auction ldg) (amount req) (userId req) (now req)) ;;
  match user req with
  | None => mthrow AUTH_REQUIRED
  | Some bidder =>
      let '(ldg', ev) := applyBid ldg bidder req in
      put_ledger ldg' ;;
      emit_event (Auction.id (auction ldg)) "bid" (BidData ev) ;;
      mret ev
  end.

(** Requests served one after the other; each result is reported to its
    caller, and a rejection does not stop the ones that follow. *)
Fixpoint serve (reqs : list BidRequest) (w : World)
    : list (Throws BidEvent) * World :=
  match reqs with
  | [] => ([], w)
  | req :: rest =>
      let '(r, w') := placeBid req w in
      let '(rs, w'') := serve rest w' in
      (r :: rs, w'')
  end.

(** The ledger after a run. *)
Definition after (reqs : list BidRequest) (w : World) : Ledger :=
  ledger (snd (serve reqs w)).

Definition price (ldg : Ledger) : Z := Auction.currentPrice (auction ldg).


(** Modelled from the spec: a freshly published auction (section 3:
    [originalEndTime] fixed at publish, no bid yet); the publish action is
    missing from the sources. *)
Definition publish (a : Auction) : Ledger :=
  {| auction :=
       {| Auction.id := Auction.id a;
          Auction.sellerId := Auction.sellerId a;
          Auction.status := Status.ACTIVE;
          Auction.startingPrice := Auction.startingPrice a;
          Auction.currentPrice := Auction.startingPrice a;
          Auction.reservePrice := Auction.reservePrice a;
          Auction.bidIncrement := Auction.bidIncrement a;
          Auction.startTime := Auction.startTime a;
          Auction.duration := Auction.duration a;
          Auction.endTime := originalEndTime a;
          Auction.winnerId := None |};
     bids := [] |}.



(** ** Route protection ([middleware.ts]) *)

Module URL.
(** The parts of a [URL] the middleware touches. *)
Record t := mk {
  origin : string;
  pathname : string;
  searchParams : list (string * string)
}.
End URL.
Abbreviation URL := URL.t.

(** [new URL(path, base)] for an absolute [path]: the origin of [base], the
    given path, no query. *)
Definition new_URL (path : string) (base : URL) : URL :=
  {| URL.origin := URL.origin base; URL.pathname := path; URL.searchParams := [] |}.

(** [URLSearchParams.prototype.set]: the first entry of that name takes the
    value and the later ones go; without one, the pair is appended. *)
Fixpoint params_set (name value : string) (ps : list (string * string))
    : list (string * string) :=
  match ps with
  | [] => [(name, value)]
  | (n, v) :: rest =>
      if String.eqb n name then
        (name, value) :: filter (fun p => fst p <> name) rest
      else (n, v) :: params_set name value rest
  end.

Definition searchParams_set (name value : string) (u : URL) : URL :=
  {| URL.origin := URL.origin u;
     URL.pathname := URL.pathname u;
     URL.searchParams := params_set name value (URL.searchParams u) |}.

(** [NextRequest]: [request.url] and [request.nextUrl] are the same URL. *)
Record NextRequest := mkNextRequest {
  nextUrl : URL
}.

(** [NextResponse.redirect(url)] and [NextResponse.next()] *)
Inductive NextResponse :=
  | redirect (url : URL)
  | next.

(** What [auth()] resolves to. *)
Record Session := mkSession {
  session_user : option SessionUser
}.

(** [String.prototype.startsWith] *)
Definition startsWith (s searchString : string) : bool :=
  String.prefix searchString s.

Definition protectedRoutes : list string :=
  ["/dashboard"; "/auctions/create"]%string.

Definition adminRoutes : list string :=
  ["/admin"]%string.

(** [auth] is the value [await auth()] yields ([lib/auth] is external). *)
Definition middleware (request : NextRequest) (auth : option Session)
    : NextResponse :=
  let pathname := URL.pathname (nextUrl request) in
  (* Check if route requires authentication *)
  let isProtectedRoute :=
    existsb (fun route => startsWith pathname route) protectedRoutes in
  let isAdminRoute :=
    existsb (fun route => startsWith pathname route) adminRoutes in
  if isProtectedRoute || isAdminRoute then
    let session := auth in
    (* Redirect to login if not authenticated *)
    match session ≫= session_user with
    | None =>
        let loginUrl := new_URL "/login" (nextUrl request) in
        redirect (searchParams_set "callbackUrl" pathname loginUrl)
    | Some u =>
        (* Check admin access *)
        if isAdminRoute && negb (bool_decide (SessionUser.role u = ADMIN)) then
          redirect (new_URL "/" (nextUrl request))
        else next
    end
  else next.

(** *** The postcondition, as a decision table *)

(** The pathname starts with one of the three guarded prefixes. *)
Definition guarded (pathname : string) : Prop :=
  exists rest, pathname = ("/dashboard" ++ rest)%string \/
               pathname = ("/auctions/create" ++ rest)%string \/
               pathname = ("/admin" ++ rest)%string.

Definition admin_path (pathname : string) : Prop :=
  exists rest, pathname = ("/admin" ++ rest)%string.

(** The authenticated user of a session, if there is one. *)
Definition authenticated (auth : option Session) : option SessionUser :=
  match auth with
  | Some s => session_user s
  | None => None
  end.

(** The login redirect: [/login?callbackUrl=<pathname>] on the request's
    origin. *)
Definition login_redirect (request : NextRequest) : NextResponse :=
  redirect {| URL.origin := URL.origin (nextUrl request);
              URL.pathname := "/login";
              URL.searchParams := [("callbackUrl"%string, URL.pathname (nextUrl request))] |}.

Definition home_redirect (request : NextRequest) : NextResponse :=
  redirect {| URL.origin := URL.origin (nextUrl request);
              URL.pathname := "/";
              URL.searchParams := [] |}.

(** ** More vocabulary for the emitter and the policy *)

(** An operation other than subscribing [listener] to [auctionId]. *)
Definition not_subscribing {E} (auctionId : string) (listener : Listener)
    (op : BusOp E) : Prop :=
  match op with
  | Subscribe a l => ~ (a = auctionId /\ l = listener)
  | _ => True
  end.

(** An operation on [auctionId]. *)
Definition targets {E} (auctionId : string) (op : BusOp E) : Prop :=
  match op with
  | Subscribe a _ | Unsubscribe a _ | Emit a _ _ => a = auctionId
  end.

(** [auction.endTime = newEnd], everything else as it was. *)
Definition with_endTime {T} (a : Auction.t T) (newEnd : Z) : Auction.t T :=
  set_price_and_end a (Auction.currentPrice a) newEnd.

(** The auction after its end time has been replaced, at each of the given
    times in turn, by what [maybeExtendAuction] returns then. *)
Definition extended {T} (a : Auction.t T) (times : list Z) : Auction.t T :=
  fold_left (fun a now => with_endTime a (maybeExtendAuction a now)) times a.

(** ** The client hook ([useAuctionSSE], docs/features/BIDDING.md) *)

(** The three pieces of state of the hook; [None] is [undefined]. *)
Record HookState := mkHookState {
  hook_currentPrice : option Z;
  hook_bids : list BidEvent;
  hook_status : option string
}.

(** [useState()] three times. *)
Definition hook_initial : HookState :=
  {| hook_currentPrice := None; hook_bids := []; hook_status := None |}.

(** What the [EventSource] does with one event of the stream: it calls the
    listener registered under the event's name with the parsed data. The
    [bid] listener reads [data.auction.currentPrice] first, which throws on
    data without an [auction], before any state is set; the [status]
    listener stores [data.status], [undefined] when the data has none; no
    listener is registered for [ping]. *)
Definition hook_receive (st : HookState) (e : SSE) : HookState :=
  let '(event, data) := e in
  if String.eqb event "bid" then
    match data with
    | BidData d =>
        {| hook_currentPrice := Some (BidEvent.auction_currentPrice d);
           hook_bids := d :: hook_bids st;
           hook_status := hook_status st |}
    | _ => st
    end
  else if String.eqb event "status" then
    {| hook_currentPrice := hook_currentPrice st;
       hook_bids := hook_bids st;
       hook_status :=
         match data with
         | StatusData d => Some (StatusEvent.status d)
         | _ => None
         end |}
  else st.

(** The hook after a stream of events. *)
Definition hook_run (stream : list SSE) (st : HookState) : HookState :=
  fold_left hook_receive stream st.

(** The [bid] events of a stream, with their data. *)
Fixpoint stream_bids (stream : list SSE) : list BidEvent :=
  match stream with
  | [] => []
  | (event, BidData d) :: rest =>
      if String.eqb event "bid" then d :: stream_bids rest else stream_bids rest
  | _ :: rest => stream_bids rest
  end.

(** ** Formatting helpers ([lib/format.ts]) *)

(** [String.prototype.slice(start, end)] for integer arguments: a negative
    index counts from the end, and both are clamped to the string. *)
Definition slice (s : string) (start end_ : Z) : string :=
  let len := Z.of_nat (String.length s) in
  let from := if start <? 0 then Z.max (len + start) 0 else Z.min start len in
  let to := if end_ <? 0 then Z.max (len + end_) 0 else Z.min end_ len in
  String.substring (Z.to_nat from) (Z.to_nat (Z.max (to - from) 0)) s.

(** [truncate(text, maxLength)] *)
Definition truncate (text : string) (maxLength : Z) : string :=
  if Z.of_nat (String.length text) <=? maxLength then text
  else (slice text 0 (maxLength - 3) ++ "...")%string.

(** A number in a template literal: an integer prints in decimal. *)
Definition Number_toString (n : Z) : string :=
  NilZero.string_of_int (Z.to_int n).

(** [Math.floor(a / b)] for integers [a] and [b > 0]. *)
Definition floor_div (a b : Z) : Z := Z.div a b.

(** The four fields of the countdown, as [formatCountdown] computes them
    from [diffMs]: [%] is the remainder that takes the sign of the dividend. *)
Definition countdown_days (diffMs : Z) : Z :=
  floor_div diffMs (1000 * 60 * 60 * 24).
Definition countdown_hours (diffMs : Z) : Z :=
  floor_div (Z.rem diffMs (1000 * 60 * 60 * 24)) (1000 * 60 * 60).
Definition countdown_minutes (diffMs : Z) : Z :=
  floor_div (Z.rem diffMs (1000 * 60 * 60)) (1000 * 60).
Definition countdown_seconds (diffMs : Z) : Z :=
  floor_div (Z.rem diffMs (1000 * 60)) 1000.

(** [formatCountdown(endTime)], the clock being [now]. *)
Definition formatCountdown (endTime now : Z) : string :=
  let diffMs := endTime - now in
  if diffMs <=? 0 then "Ended"%string
  else
    let days := countdown_days diffMs in
    let hours := countdown_hours diffMs in
    let minutes := countdown_minutes diffMs in
    let seconds := countdown_seconds diffMs in
    if days >? 0 then
      (Number_toString days ++ "d " ++ Number_toString hours ++ "h "
       ++ Number_toString minutes ++ "m")%string
    else if hours >? 0 then
      (Number_toString hours ++ "h " ++ Number_toString minutes ++ "m "
       ++ Number_toString seconds ++ "s")%string
    else
      (Number_toString minutes ++ "m " ++ Number_toString seconds ++ "s")%string.

(** The units of [Intl.RelativeTimeFormat.prototype.format]. *)
Inductive RelativeTimeUnit := days | hours | minutes | seconds.

(** What [formatRelativeTime(date)] hands to [rtf.format]: the value and the
    unit. *)
Definition relativeTime (date now : Z) : Z * RelativeTimeUnit :=
  let diffMs := date - now in
  let diffSeconds := floor_div diffMs 1000 in
  let diffMinutes := floor_div diffSeconds 60 in
  let diffHours := floor_div diffMinutes 60 in
  let diffDays := floor_div diffHours 24 in
  if Z.abs diffDays >=? 1 then (diffDays, days)
  else if Z.abs diffHours >=? 1 then (diffHours, hours)
  else if Z.abs diffMinutes >=? 1 then (diffMinutes, minutes)
  else (diffSeconds, seconds).

(** [formatRelativeTime(date)]; [rtf_format] is the formatter
    [new Intl.RelativeTimeFormat('en', { numeric: 'auto' })]. *)
Definition formatRelativeTime (rtf_format : Z -> RelativeTimeUnit -> string)
    (date now : Z) : string :=
  let '(value, unit) := relativeTime date now in
  rtf_format value unit.

(** Milliseconds in one unit. *)
Definition unit_ms (u : RelativeTimeUnit) : Z :=
  match u with
  | days => 1000 * 60 * 60 * 24
  | hours => 1000 * 60 * 60
  | minutes => 1000 * 60
  | seconds => 1000
  end.


(** The last character of a string. *)
Fixpoint last_char (s : string) : option Ascii.ascii :=
  match s with
  | EmptyString => None
  | String c rest =>
      match last_char rest with
      | Some d => Some d
      | None => Some c
      end
  end.

(** *** [maskName] *)

Section maskName.
(** The two Unicode tables the code relies on: white space (the same set for
    [trim] and for [\s]) and upper-casing. *)
Context (isWhiteSpace : ascii -> bool) (toUpperCase : string -> string).

(** [String.prototype.trimStart] and [trimEnd] *)
Fixpoint trimStart (s : string) : string :=
  match s with
  | EmptyString => EmptyString
  | String c rest => if isWhiteSpace c then trimStart rest else s
  end.

Fixpoint trimEnd (s : string) : string :=
  match s with
  | EmptyString => EmptyString
  | String c rest =>
      match trimEnd rest with
      | EmptyString => if isWhiteSpace c then EmptyString else String c EmptyString
      | kept => String c kept
      end
  end.

(** [String.prototype.trim] *)
Definition trim (s : string) : string := trimEnd (trimStart s).

(** [s.split(/\s+/)]: the pieces between the maximal runs of white space;
    [in_run] tells that the previous character was white space. *)
Fixpoint split_go (in_run : bool) (s : string) : list string :=
  match s with
  | EmptyString => [EmptyString]
  | String c rest =>
      if isWhiteSpace c then
        if in_run then split_go true rest
        else EmptyString :: split_go true rest
      else
        match split_go false rest with
        | piece :: pieces => String c piece :: pieces
        | [] => [String c EmptyString]
        end
  end.

Definition split_whitespace (s : string) : list string := split_go false s.

(** [String.prototype.charAt] *)
Definition charAt (s : string) (n : nat) : string :=
  match String.get n s with
  | Some c => String c EmptyString
  | None => EmptyString
  end.

(** [maskName(name)] *)
Definition maskName (name : string) : string :=
  let parts := split_whitespace (trim name) in
  if (length parts =? 1)%nat then
    (toUpperCase (charAt (nth 0 parts EmptyString) 0) ++ "***")%string
  else
    (nth 0 parts EmptyString ++ " "
     ++ toUpperCase (charAt (nth (length parts - 1) parts EmptyString) 0) ++ ".")%string.
End maskName.

(** Every character of a string passes a test. *)
Fixpoint all_chars (test : ascii -> bool) (s : string) : bool :=
  match s with
  | EmptyString => true
  | String c rest => test c && all_chars test rest
  end.

(** White space only (the empty string included). *)
Definition blank (isWhiteSpace : ascii -> bool) (s : string) : Prop :=
  all_chars isWhiteSpace s = true.

(** A word: not empty, no white space. *)
Definition word (isWhiteSpace : ascii -> bool) (s : string) : Prop :=
  s <> EmptyString /\ all_chars (fun c => negb (isWhiteSpace c)) s = true.

(** A separator followed by a word. *)
Definition separated_word (isWhiteSpace : ascii -> bool) (p : string * string) : Prop :=
  fst p <> EmptyString /\ blank isWhiteSpace (fst p) /\ word isWhiteSpace (snd p).

(** A first word followed by separated words. *)
Fixpoint join (w : string) (more : list (string * string)) : string :=
  match more with
  | [] => w
  | (sep, w') :: more' => (w ++ sep ++ join w' more')%string
  end.

(** The last word of a joined name. *)
Fixpoint last_word (w : string) (more : list (string * string)) : string :=
  match more with
  | [] => w
  | (_, w') :: more' => last_word w' more'
  end.

(** ASCII upper-casing, for examples. *)
Fixpoint ascii_upper (s : string) : string :=
  match s with
  | EmptyString => EmptyString
  | String c rest =>
      let n := nat_of_ascii c in
      String (if (97 <=? n)%nat && (n <=? 122)%nat then ascii_of_nat (n - 32) else c)
             (ascii_upper rest)
  end.

(** ** The SSE route ([GET /api/sse/auctions/[id]], docs/features/BIDDING.md) *)

(** The line feed of the template literal. *)
Definition LF : string := String (ascii_of_nat 10) EmptyString.

(** What [send(event, data)] enqueues; [JSON_stringify] is [JSON.stringify]. *)
Definition sse_chunk (JSON_stringify : SSEData -> string) (event : string)
    (data : SSEData) : string :=
  ("event: " ++ event ++ LF ++ "data: " ++ JSON_stringify data ++ LF ++ LF)%string.

(** The server as the route sees it: the emitter singleton, the open
    connections, each with the auction it was opened for and a live
    heartbeat timer, and the streams that their consumer has cancelled, on
    which [controller.enqueue] throws. A connection is named by its listener,
    the closure that [start] creates; that listener only calls [send], so
    the calls logged for it that returned, with the heartbeats of the
    connection added to the log, are what was enqueued on the connection. *)
Record SseServer := mkSseServer {
  sse_emitter : BidEmitter SSE;
  sse_open : gmap Listener string;
  sse_cancelled : gset Listener
}.

Inductive SseStep :=
  (** a request arrives: [start(controller)] subscribes and sets the timer *)
  | Connect (auctionId : string) (conn : Listener)
  (** the request's [abort] event: [unsubscribe(); clearInterval(heartbeat)] *)
  | Abort (conn : Listener)
  (** the 30 s timer of a connection fires: [send('ping', {})] *)
  | Heartbeat (conn : Listener)
  (** somebody calls [bidEmitter.emit(auctionId, event, data)] *)
  | Publish (auctionId : string) (event : string) (data : SSEData)
  (** the consumer of a connection's stream cancels it (the client is gone):
      the route has no [cancel] handler, nothing is unsubscribed *)
  | Cancel (conn : Listener).

(** Whether [send] throws on a connection: [controller.enqueue] does, once
    the stream has been cancelled. *)
Definition sse_throws (srv : SseServer) (conn : Listener) : bool :=
  bool_decide (conn ∈ sse_cancelled srv).

(** [send(event, data)], called by the timer of a connection. *)
Definition sse_send (conn : Listener) (e : SSE) (srv : SseServer) : BidEmitter SSE :=
  {| listeners := listeners (sse_emitter srv);
     calls := calls (sse_emitter srv) ++
              [mkCall conn e (if sse_throws srv conn then Thrown else Returned)] |}.

Definition sse_step (srv : SseServer) (step : SseStep) : SseServer :=
  match step with
  | Connect auctionId conn =>
      {| sse_emitter := fst (subscribe auctionId conn (sse_emitter srv));
         sse_open := <[conn := auctionId]> (sse_open srv);
         sse_cancelled := sse_cancelled srv ∖ {[conn]} |}
  | Abort conn =>
      match sse_open srv !! conn with
      | Some auctionId =>
          {| sse_emitter := unsubscribe auctionId conn (sse_emitter srv);
             sse_open := delete conn (sse_open srv);
             sse_cancelled := sse_cancelled srv |}
      | None => srv
      end
  | Heartbeat conn =>
      match sse_open srv !! conn with
      | Some _ =>
          {| sse_emitter := sse_send conn ("ping"%string, PingData) srv;
             sse_open := sse_open srv;
             sse_cancelled := sse_cancelled srv |}
      | None => srv
      end
  | Publish auctionId event data =>
      {| sse_emitter :=
           snd (emit (sse_throws srv) auctionId (event, data) (sse_emitter srv));
         sse_open := sse_open srv;
         sse_cancelled := sse_cancelled srv |}
  | Cancel conn =>
      {| sse_emitter := sse_emitter srv;
         sse_open := sse_open srv;
         sse_cancelled := {[conn]} ∪ sse_cancelled srv |}
  end.

Definition sse_run (steps : list SseStep) (srv : SseServer) : SseServer :=
  fold_left sse_step steps srv.

(** The server at start: a new emitter, no connection. *)
Definition sse_start : SseServer :=
  {| sse_emitter := new_BidEmitter; sse_open := ∅; sse_cancelled := ∅ |}.

(** The chunks enqueued on a connection so far. *)
Definition sse_stream (JSON_stringify : SSEData -> string) (conn : Listener)
    (srv : SseServer) : list string :=
  map (fun e => sse_chunk JSON_stringify (fst e) (snd e))
      (delivered conn (calls (sse_emitter srv))).

(** What a run of steps sends on the connection [conn] opened for
    [auctionId] when no [send] throws: the events published to the auction
    and the connection's own heartbeats, in order. *)
Fixpoint sse_sent (auctionId : string) (conn : Listener) (steps : list SseStep)
    : list SSE :=
  match steps with
  | [] => []
  | Publish a event data :: rest =>
      if bool_decide (a = auctionId) then (event, data) :: sse_sent auctionId conn rest
      else sse_sent auctionId conn rest
  | Heartbeat c :: rest =>
      if bool_decide (c = conn) then ("ping"%string, PingData) :: sse_sent auctionId conn rest
      else sse_sent auctionId conn rest
  | _ :: rest => sse_sent auctionId conn rest
  end.

(** Steps of other connections: the listener of a request is a new closure,
    so no other request connects with it. *)
Definition other_connection (conn : Listener) (step : SseStep) : Prop :=
  match step with
  | Connect _ c => c <> conn
  | _ => True
  end.

(** Steps that leave the connection open. *)
Definition leaves_open (conn : Listener) (step : SseStep) : Prop :=
  match step with
  | Connect _ c | Abort c => c <> conn
  | _ => True
  end.

(** Steps in which no stream is cancelled. *)
Definition keeps_streams (step : SseStep) : Prop :=
  match step with
  | Cancel _ => False
  | _ => True
  end.

(** A connection that is not open and whose listener is subscribed nowhere. *)
Definition sse_closed (conn : Listener) (srv : SseServer) : Prop :=
  sse_open srv !! conn = None /\
  forall a, conn ∉ subscribers a (sse_emitter srv).

(** A connection that is open for [auctionId]: its heartbeat is live and its
    listener is subscribed to that auction and to no other. *)
Definition sse_connected (auctionId : string) (conn : Listener) (srv : SseServer) : Prop :=
  sse_open srv !! conn = Some auctionId /\
  forall a, conn ∈ subscribers a (sse_emitter srv) <-> a = auctionId.

(** Every listener subscribed to [auctionId] can still write to its stream. *)
Definition sse_writable (auctionId : string) (srv : SseServer) : Prop :=
  forall conn, conn ∈ subscribers auctionId (sse_emitter srv) ->
               conn ∉ sse_cancelled srv.

(** ** Sample data *)

(** A seven-day auction (times in milliseconds from its start), published
    and without bids: starting price 100, increment 5. *)
Definition sample_auction : Auction :=
  {| Auction.id := "auction-1";
     Auction.sellerId := "seller";
     Auction.status := Status.ACTIVE;
     Auction.startingPrice := 100;
     Auction.currentPrice := 100;
     Auction.reservePrice := None;
     Auction.bidIncrement := 5;
     Auction.startTime := 0;
     Auction.duration := 604800000;
     Auction.endTime := 604800000;
     Auction.winnerId := None |}.

(** The same auction with an end time 31 minutes past the original end:
    beyond what the cap allows. *)
Definition overextended_auction : Auction :=
  {| Auction.id := "auction-1";
     Auction.sellerId := "seller";
     Auction.status := Status.ACTIVE;
     Auction.startingPrice := 100;
     Auction.currentPrice := 100;
     Auction.reservePrice := None;
     Auction.bidIncrement := 5;
     Auction.startTime := 0;
     Auction.duration := 604800000;
     Auction.endTime := 604800000 + 31 * 60 * 1000;
     Auction.winnerId := None |}.

Definition alice : SessionUser :=
  {| SessionUser.id := "alice"; SessionUser.email := "alice@example.com";
     SessionUser.name := "Alice A."; SessionUser.role := USER |}.

Definition bob : SessionUser :=
  {| SessionUser.id := "bob"; SessionUser.email := "bob@example.com";
     SessionUser.name := "Bob B."; SessionUser.role := USER |}.

Definition seller : SessionUser :=
  {| SessionUser.id := "seller"; SessionUser.email := "seller@example.com";
     SessionUser.name := "Sam S."; SessionUser.role := USER |}.

Definition root : SessionUser :=
  {| SessionUser.id := "root"; SessionUser.email := "root@example.com";
     SessionUser.name := "Root"; SessionUser.role := ADMIN |}.

(** The sample auction's ledger, watched by listeners 1 and 2; listener 3
    watches another auction. *)
Definition sample_world : World :=
  {| ledger := publish sample_auction;
     bidEmitter :=
       {| listeners := {[ "auction-1"%string := [1%nat; 2%nat];
                          "auction-2"%string := [3%nat] ]};
          calls := [] |} |}.

(** Alice bids too little, then enough; Bob bids 108 against the new price
    and then 110, the latter inside the last two minutes. *)
Definition sample_requests : list BidRequest :=
  [ {| bidId := "b1"; user := Some alice; amount := 103; now := 1000 |};
    {| bidId := "b2"; user := Some alice; amount := 105; now := 2000 |};
    {| bidId := "b3"; user := Some bob; amount := 108; now := 3000 |};
    {| bidId := "b4"; user := Some bob; amount := 110; now := 604800000 - 60000 |} ].

(** The sample auction at another price and increment. *)
Definition priced_auction {T} (currentPrice bidIncrement : T) : Auction.t T :=
  {| Auction.id := "auction-1";
     Auction.sellerId := "seller";
     Auction.status := Status.ACTIVE;
     Auction.startingPrice := currentPrice;
     Auction.currentPrice := currentPrice;
     Auction.reservePrice := None;
     Auction.bidIncrement := bidIncrement;
     Auction.startTime := 0;
     Auction.duration := 604800000;
     Auction.endTime := 604800000;
     Auction.winnerId := None |}.

(** The [number]s that the literals [1.03], [2.03] and
    [2.0300000000000002] denote. *)
Definition number_1_03 : number := 0x1.07ae147ae147bp+0%float.
Definition number_2_03 : number := 0x1.03d70a3d70a3dp+1%float.
Definition number_2_0300000000000002 : number := 0x1.03d70a3d70a3ep+1%float.

(** The sample auction with an increment of zero. *)
Definition free_bidding_auction : Auction :=
  {| Auction.id := "auction-1";
     Auction.sellerId := "seller";
     Auction.status := Status.ACTIVE;
     Auction.startingPrice := 100;
     Auction.currentPrice := 100;
     Auction.reservePrice := None;
     Auction.bidIncrement := 0;
     Auction.startTime := 0;
     Auction.duration := 604800000;
     Auction.endTime := 604800000;
     Auction.winnerId := None |}.

(** A [bid] event as the server would send it. *)
Definition sample_bid_event : BidEvent :=
  {| BidEvent.id := "b2"; BidEvent.amount := 105; BidEvent.createdAt := 2000;
     BidEvent.bidder_id := "alice"; BidEvent.bidder_name := "Alice A.";
     BidEvent.auction_currentPrice := 105; BidEvent.auction_endTime := 604800000 |}.

(** * Properties *)

(** ** Bid admission *)

Lemma truthy_present (userId : option string) :
  truthy userId = true <-> present userId.
Proof.
  unfold truthy, present. destruct userId as [u|].
  - rewrite negb_true_iff. split.
    + intros H. exists u. split; [reflexivity|].
      intros ->. discriminate.
    + intros (u' & [= <-] & Hne). apply String.eqb_neq. exact Hne.
  - split; [discriminate|]. intros (u & Hu & _). discriminate.
Qed.

Lemma strict_eq_spec (s : string) (userId : option string) :
  strict_eq s userId = true <-> userId = Some s.
Proof.
  unfold strict_eq. destruct userId as [u|].
  - rewrite String.eqb_eq. split; [intros ->; reflexivity | intros [= ->]; reflexivity].
  - split; discriminate.
Qed.

(** The sequenced throws of [validateBid], as one cascade, whatever the
    arithmetic. *)
Lemma validateBid_cascade `{Number T} (a : Auction.t T) (bidAmount : T)
    (userId : option string) (now : Z) :
  validateBid a bidAmount userId now =
    if truthy userId then
      if strict_eq (Auction.sellerId a) userId then inl OWN_AUCTION
      else if bool_decide (Auction.status a = Status.ACTIVE) then
        if now >? Auction.endTime a then inl ENDED
        else if num_lt bidAmount (num_add (Auction.currentPrice a) (Auction.bidIncrement a))
          then inl (TOO_LOW (num_add (Auction.currentPrice a) (Auction.bidIncrement a)))
          else inr tt
      else inl NOT_ACTIVE
    else inl AUTH_REQUIRED.
Proof.
  unfold validateBid, throw_if.
  destruct (truthy userId); [|reflexivity].
  destruct (strict_eq _ _); [reflexivity|].
  destruct (bool_decide _); [|reflexivity].
  destruct (now >? _); [reflexivity|].
  destruct (num_lt bidAmount _); reflexivity.
Qed.

(** The cascade on exact amounts. *)
Lemma validateBid_exact (a : Auction) (bidAmount : Z) (userId : option string) (now : Z) :
  validateBid a bidAmount userId now =
    if truthy userId then
      if strict_eq (Auction.sellerId a) userId then inl OWN_AUCTION
      else if bool_decide (Auction.status a = Status.ACTIVE) then
        if now >? Auction.endTime a then inl ENDED
        else if bidAmount <? Auction.currentPrice a + Auction.bidIncrement a
          then inl (TOO_LOW (Auction.currentPrice a + Auction.bidIncrement a))
          else inr tt
      else inl NOT_ACTIVE
    else inl AUTH_REQUIRED.
Proof. exact (validateBid_cascade a bidAmount userId now). Qed.

Lemma bool_decide_as_bool (P : Prop) `{Decision P} (b : bool) :
  (P <-> b = true) -> bool_decide P = b.
Proof.
  intros HP. destruct b.
  - apply bool_decide_eq_true_2, HP. reflexivity.
  - apply bool_decide_eq_false_2. intros p. apply HP in p. discriminate.
Qed.

(** The first four checks, as the cascade takes them. *)
Lemma eligible_cascade {T} (a : Auction.t T) (userId : option string) (now : Z) :
  eligible a userId now <->
  truthy userId = true /\ strict_eq (Auction.sellerId a) userId = false /\
  bool_decide (Auction.status a = Status.ACTIVE) = true /\
  (now >? Auction.endTime a) = false.
Proof.
  unfold eligible.
  rewrite truthy_present, <- not_true_iff_false, strict_eq_spec, bool_decide_eq_true.
  destruct (Z.gtb_spec now (Auction.endTime a)).
  - split; [intros (_ & _ & _ & Hle); lia | intros (_ & _ & _ & [=])].
  - tauto.
Qed.

(** Whatever the arithmetic: the last check decides for an eligible bidder,
    and for nobody else. *)
Lemma validateBid_last_check `{Number T} (a : Auction.t T) (bidAmount : T)
    (userId : option string) (now : Z) :
  let minBid := num_add (Auction.currentPrice a) (Auction.bidIncrement a) in
  (forall m, validateBid a bidAmount userId now = inl (TOO_LOW m) <->
     eligible a userId now /\ num_lt bidAmount minBid = true /\ m = minBid) /\
  (validateBid a bidAmount userId now = inr tt <->
     eligible a userId now /\ num_lt bidAmount minBid = false).
Proof.
  intros minBid. rewrite validateBid_cascade. fold minBid.
  setoid_rewrite eligible_cascade.
  destruct (truthy userId);
    [|split; [intros m|]; (split; [discriminate | intros ((? & _) & _); discriminate])].
  destruct (strict_eq _ _);
    [split; [intros m|]; (split; [discriminate | intros ((_ & ? & _) & _); discriminate])|].
  destruct (bool_decide _);
    [|split; [intros m|]; (split; [discriminate | intros ((_ & _ & ? & _) & _); discriminate])].
  destruct (now >? _);
    [split; [intros m|]; (split; [discriminate | intros ((_ & _ & _ & ?) & _); discriminate])|].
  destruct (num_lt bidAmount minBid); split; try intros m; split;
    try discriminate; try (intros (_ & ? & _); discriminate);
    try (intros (_ & ?); discriminate).
  - intros [= <-]. repeat split; reflexivity.
  - intros (_ & _ & ->). reflexivity.
  - intros _. repeat split; reflexivity.
  - intros _. reflexivity.
Qed.

Lemma validateBid_ok (a : Auction) (bidAmount : Z) (userId : option string) (now : Z) :
  validateBid a bidAmount userId now = inr tt <-> passes a userId bidAmount now.
Proof.
  rewrite (proj2 (validateBid_last_check a bidAmount userId now)). unfold passes.
  cbn [num_lt num_add Z_Number]. rewrite Z.ltb_ge. split; intros (Hel & Hge); (split; [exact Hel | lia]).
Qed.

Lemma validateBid_own `{Number T} (a : Auction.t T) (bidAmount : T)
    (userId : option string) (now : Z) :
  validateBid a bidAmount userId now = inl OWN_AUCTION <->
  present userId /\ userId = Some (Auction.sellerId a).
Proof.
  rewrite validateBid_cascade.
  pose proof (truthy_present userId) as Ht.
  pose proof (strict_eq_spec (Auction.sellerId a) userId) as Hs.
  destruct (truthy userId).
  2:{ split; [discriminate|]. intros (Hp & _). apply Ht in Hp. discriminate. }
  destruct (strict_eq _ _).
  - split; [|reflexivity]. intros _. split; [apply Ht | apply Hs]; reflexivity.
  - split.
    + destruct (bool_decide _); [|discriminate].
      destruct (now >? _); [discriminate|].
      destruct (num_lt bidAmount _); discriminate.
    + intros (_ & Heq). apply Hs in Heq. discriminate.
Qed.

(** A rejection leaves the world as it was. *)
Lemma placeBid_rejected (req : BidRequest) (w : World) (e : BidError) :
  validateBid (auction (ledger w)) (amount req) (userId req) (now req) = inl e ->
  placeBid req w = (inl e, w).
Proof.
  intros H. unfold placeBid, mbind, M_bind, get_ledger, run_pure. cbn.
  rewrite H. reflexivity.
Qed.

(** An accepted bid is applied and published. *)
Lemma placeBid_accepted (req : BidRequest) (w : World) :
  validateBid (auction (ledger w)) (amount req) (userId req) (now req) = inr tt ->
  exists bidder,
    user req = Some bidder /\
    placeBid req w =
      (inr (snd (applyBid (ledger w) bidder req)),
       {| ledger := fst (applyBid (ledger w) bidder req);
          bidEmitter :=
            snd (emit (fun _ => false) (Auction.id (auction (ledger w)))
                   ("bid"%string, BidData (snd (applyBid (ledger w) bidder req)))
                   (bidEmitter w)) |}).
Proof.
  intros H.
  assert (Hu : exists bidder, user req = Some bidder).
  { apply validateBid_ok in H. destruct H as (((u & Hu & _) & _) & _).
    unfold userId in Hu. destruct (user req) as [b|]; [eauto | discriminate]. }
  destruct Hu as (bidder & Hu). exists bidder. split; [exact Hu|].
  unfold placeBid, mbind, M_bind, get_ledger, run_pure. cbn.
  rewrite H, Hu. reflexivity.
Qed.

(** C1. Bid admission evaluates five checks in order and reports the first
    that fails: no resolvable bidder, AUTH_REQUIRED; the bidder is the seller,
    OWN_AUCTION; the auction is not ACTIVE, NOT_ACTIVE; [now] strictly past
    the end time, ENDED; the amount strictly below current price plus
    increment, TOO_LOW carrying that minimum; otherwise the bid is accepted.
    Sum and comparison are those of the code's [number]s. With current price
    100 and increment 5, a bid of 103 is rejected TOO_LOW(105), and a bid of
    105 is accepted and, in the ledger, becomes the current price. *)
Theorem validateBid_first_failure :
  forall (a : Auction.t number) (bidderId : option string) (bidAmount : number)
         (time : Z),
    let r := validateBid a bidAmount bidderId time in
    let minBid := PrimFloat.add (Auction.currentPrice a) (Auction.bidIncrement a) in
    outcome r = decide_admission a bidderId bidAmount time /\
    (r = inl AUTH_REQUIRED <-> ~ present bidderId) /\
    (r = inl OWN_AUCTION <->
       present bidderId /\ bidderId = Some (Auction.sellerId a)) /\
    (r = inl NOT_ACTIVE <->
       present bidderId /\ bidderId <> Some (Auction.sellerId a) /\
       Auction.status a <> Status.ACTIVE) /\
    (r = inl ENDED <->
       present bidderId /\ bidderId <> Some (Auction.sellerId a) /\
       Auction.status a = Status.ACTIVE /\ time > Auction.endTime a) /\
    (forall m, r = inl (TOO_LOW m) <->
       eligible a bidderId time /\ PrimFloat.ltb bidAmount minBid = true /\ m = minBid) /\
    (r = inr tt <->
       eligible a bidderId time /\ PrimFloat.ltb bidAmount minBid = false) /\
    (* the scenario, on the code's numbers *)
    (Auction.currentPrice a = 100%float -> Auction.bidIncrement a = 5%float ->
     eligible a bidderId time ->
     validateBid a 103%float bidderId time = inl (TOO_LOW 105%float) /\
     validateBid a 105%float bidderId time = inr tt) /\
    (* and its end in the ledger, where the accepted bid is applied *)
    (forall (w : World) (req : BidRequest),
       eligible (auction (ledger w)) (userId req) (now req) ->
       Auction.currentPrice (auction (ledger w)) = 100 ->
       Auction.bidIncrement (auction (ledger w)) = 5 ->
       (amount req = 103 -> placeBid req w = (inl (TOO_LOW 105), w)) /\
       (amount req = 105 ->
          (exists ev, fst (placeBid req w) = inr ev) /\
          Auction.currentPrice (auction (ledger (snd (placeBid req w)))) = 105)).
Proof.
  intros a bidderId bidAmount time r minBid.
  destruct (validateBid_last_check a bidAmount bidderId time) as (Hlow & Hok).
  split; [|split; [|split; [|split; [|split; [|split; [exact Hlow|split; [exact Hok|split]]]]]]].
  - (* the code against the ordered list of checks *)
    subst r. rewrite validateBid_cascade.
    unfold decide_admission, admission_checks, first_failure.
    rewrite (bool_decide_as_bool (~ present bidderId) (negb (truthy bidderId))),
      (bool_decide_as_bool (bidderId = Some (Auction.sellerId a))
         (strict_eq (Auction.sellerId a) bidderId)),
      (bool_decide_as_bool (Auction.status a <> Status.ACTIVE)
         (negb (bool_decide (Auction.status a = Status.ACTIVE)))),
      (bool_decide_as_bool (time > Auction.endTime a) (time >? Auction.endTime a)).
    + destruct (truthy bidderId); [|reflexivity].
      destruct (strict_eq _ _); [reflexivity|].
      destruct (bool_decide _); [|reflexivity].
      destruct (time >? _); [reflexivity|].
      destruct (num_lt bidAmount _); reflexivity.
    + rewrite Z.gtb_gt. reflexivity.
    + rewrite negb_true_iff, bool_decide_eq_false. reflexivity.
    + symmetry. apply strict_eq_spec.
    + rewrite negb_true_iff, <- not_true_iff_false, truthy_present. reflexivity.
  - subst r. rewrite validateBid_cascade.
    pose proof (truthy_present bidderId) as Ht.
    destruct (truthy bidderId).
    + split.
      * destruct (strict_eq _ _); [discriminate|].
        destruct (bool_decide _); [|discriminate].
        destruct (time >? _); [discriminate|].
        destruct (num_lt bidAmount _); discriminate.
      * intros Hn. exfalso. apply Hn, Ht. reflexivity.
    + split; [|reflexivity]. intros _ Hp. apply Ht in Hp. discriminate.
  - apply validateBid_own.
  - subst r. rewrite validateBid_cascade.
    pose proof (truthy_present bidderId) as Ht.
    pose proof (strict_eq_spec (Auction.sellerId a) bidderId) as Hs.
    destruct (truthy bidderId).
    2:{ split; [discriminate|]. intros (Hp & _). apply Ht in Hp. discriminate. }
    destruct (strict_eq _ _).
    { split; [discriminate|]. intros (_ & Hn & _). exfalso. apply Hn, Hs. reflexivity. }
    case_bool_decide as Hst.
    + split.
      * destruct (time >? _); [discriminate|].
        destruct (num_lt bidAmount _); discriminate.
      * intros (_ & _ & Hn). contradiction.
    + split; [|reflexivity]. intros _.
      repeat split; [apply Ht; reflexivity | | assumption].
      intros Heq. apply Hs in Heq. discriminate.
  - subst r. rewrite validateBid_cascade.
    pose proof (truthy_present bidderId) as Ht.
    pose proof (strict_eq_spec (Auction.sellerId a) bidderId) as Hs.
    destruct (truthy bidderId).
    2:{ split; [discriminate|]. intros (Hp & _). apply Ht in Hp. discriminate. }
    destruct (strict_eq _ _).
    { split; [discriminate|]. intros (_ & Hn & _). exfalso. apply Hn, Hs. reflexivity. }
    case_bool_decide as Hst.
    2:{ split; [discriminate|]. intros (_ & _ & Hact & _). contradiction. }
    destruct (Z.gtb_spec time (Auction.endTime a)).
    + split; [|reflexivity]. intros _.
      repeat split; [apply Ht; reflexivity | | assumption | lia].
      intros Heq. apply Hs in Heq. discriminate.
    + split.
      * destruct (num_lt bidAmount _); discriminate.
      * intros (_ & _ & _ & Hgt). lia.
  - (* the scenario *)
    intros Hcp Hinc Hel. split.
    + apply (proj1 (validateBid_last_check a 103%float bidderId time)).
      cbn [num_add num_lt number_Number]. rewrite Hcp, Hinc.
      split; [exact Hel | split; reflexivity].
    + apply (proj2 (validateBid_last_check a 105%float bidderId time)).
      cbn [num_add num_lt number_Number]. rewrite Hcp, Hinc.
      split; [exact Hel | reflexivity].
  - intros w req Hel Hcp Hinc. split.
    + intros Hamt. apply placeBid_rejected.
      apply (proj1 (validateBid_last_check _ _ _ _)).
      cbn [num_add num_lt Z_Number]. rewrite Hcp, Hinc, Hamt.
      split; [exact Hel | split; reflexivity].
    + intros Hamt.
      assert (Hv : validateBid (auction (ledger w)) (amount req)
                     (userId req) (now req) = inr tt).
      { apply validateBid_ok. split; [exact Hel | lia]. }
      destruct (placeBid_accepted req w Hv) as (bidder & _ & ->). cbn.
      split; [eauto | exact Hamt].
Qed.

(** What the arithmetic of [number] means for money. The minimum that
    [validateBid] computes is the rounded sum: at a current price of 1.03 and
    an increment of 1 it is 2.0300000000000002, and a bid of 2.03 is rejected
    with that minimum. *)
Example validateBid_rounded_minimum :
  validateBid (priced_auction number_1_03 1%float) number_2_03
    (Some "alice"%string) 1000 = inl (TOO_LOW number_2_0300000000000002).
Proof. reflexivity. Qed.

(** The three numbers are the quotients the literals stand for, each rounded
    once. *)
Example number_literals :
  PrimFloat.div 103%float 100%float = number_1_03 /\
  PrimFloat.div 203%float 100%float = number_2_03 /\
  PrimFloat.ltb number_2_03 number_2_0300000000000002 = true.
Proof. repeat split. Qed.

(** The same bid in exact cents passes. *)
Example validateBid_exact_minimum :
  validateBid (priced_auction 103 100) 203 (Some "alice"%string) 1000 = inr tt.
Proof. reflexivity. Qed.

(** ** Anti-sniping *)

(** The two constants of [maybeExtendAuction] are those of [ANTI_SNIPING]. *)
Lemma maybeExtendAuction_cases {T} (a : Auction.t T) (now : Z) :
  maybeExtendAuction a now =
    if Auction.endTime a - now <? ANTI_SNIPING.WINDOW_MS then
      if now + ANTI_SNIPING.EXTENSION_MS >? originalEndTime a + ANTI_SNIPING.MAX_EXTENSION_MS
      then originalEndTime a + ANTI_SNIPING.MAX_EXTENSION_MS
      else now + ANTI_SNIPING.EXTENSION_MS
    else Auction.endTime a.
Proof. reflexivity. Qed.

(** Within the cap, the new end time lies between the old one and the cap. *)
Lemma maybeExtendAuction_bounds {T} (a : Auction.t T) (now : Z) :
  Auction.endTime a <= originalEndTime a + ANTI_SNIPING.MAX_EXTENSION_MS ->
  Auction.endTime a <= maybeExtendAuction a now <=
    originalEndTime a + ANTI_SNIPING.MAX_EXTENSION_MS.
Proof.
  intros Hcap. rewrite maybeExtendAuction_cases.
  unfold ANTI_SNIPING.WINDOW_MS, ANTI_SNIPING.EXTENSION_MS in *.
  destruct (Z.ltb_spec (Auction.endTime a - now) (2 * 60 * 1000)); [|lia].
  destruct (Z.gtb_spec (now + 2 * 60 * 1000)
              (originalEndTime a + ANTI_SNIPING.MAX_EXTENSION_MS)); lia.
Qed.

(** C3. With a window of 2 minutes, a step of 2 minutes and a cap of 30
    minutes, the anti-sniping function returns the end time unchanged when at
    least the window is left, and otherwise the smaller of [now + step] and
    [originalEndTime + cap]: a bid inside the final two minutes moves the end
    to [now] plus two minutes, or to the capped end when that would exceed
    it. *)
Theorem maybeExtendAuction_is_extend :
  forall (T : Type) (a : Auction.t T) (now : Z),
    let window := 2 * 60 * 1000 in
    let step := 2 * 60 * 1000 in
    let cap := 30 * 60 * 1000 in
    let maxEnd := originalEndTime a + cap in
    window = ANTI_SNIPING.WINDOW_MS /\
    step = ANTI_SNIPING.EXTENSION_MS /\
    cap = ANTI_SNIPING.MAX_EXTENSION_MS /\
    maybeExtendAuction a now = extend window step cap a now /\
    (Auction.endTime a - now >= window ->
       maybeExtendAuction a now = Auction.endTime a) /\
    (Auction.endTime a - now < window ->
       maybeExtendAuction a now = Z.min (now + step) maxEnd) /\
    (Auction.endTime a - now < window -> now + step <= maxEnd ->
       maybeExtendAuction a now = now + step) /\
    (Auction.endTime a - now < window -> now + step > maxEnd ->
       maybeExtendAuction a now = maxEnd).
Proof.
  intros T a now window step cap maxEnd.
  assert (Hcases : maybeExtendAuction a now =
            if Auction.endTime a - now <? window then Z.min (now + step) maxEnd
            else Auction.endTime a).
  { rewrite maybeExtendAuction_cases. subst window step cap maxEnd.
    unfold ANTI_SNIPING.WINDOW_MS, ANTI_SNIPING.EXTENSION_MS, ANTI_SNIPING.MAX_EXTENSION_MS.
    destruct (_ <? _); [|reflexivity].
    destruct (Z.gtb_spec (now + 2 * 60 * 1000) (originalEndTime a + 30 * 60 * 1000)); lia. }
  repeat split; try reflexivity.
  - rewrite Hcases. unfold extend. fold maxEnd.
    destruct (Z.ltb_spec (Auction.endTime a - now) window).
    + rewrite bool_decide_false by lia. reflexivity.
    + rewrite bool_decide_true by lia. reflexivity.
  - intros Hleft. rewrite Hcases.
    destruct (Z.ltb_spec (Auction.endTime a - now) window); [lia | reflexivity].
  - intros Hleft. rewrite Hcases.
    destruct (Z.ltb_spec (Auction.endTime a - now) window); [reflexivity | lia].
  - intros Hleft Hfit. rewrite Hcases.
    destruct (Z.ltb_spec (Auction.endTime a - now) window); lia.
  - intros Hleft Hover. rewrite Hcases.
    destruct (Z.ltb_spec (Auction.endTime a - now) window); lia.
Qed.

(** C4, as stated, fails: an auction whose end time already lies beyond the
    cap (31 minutes past its original end) and a bid one minute before that
    end; the function returns the capped end, one minute earlier than the
    end time it was given. *)
Lemma maybeExtendAuction_shrinks_overextended :
  Auction.endTime overextended_auction = 604800000 + 31 * 60 * 1000 /\
  maybeExtendAuction overextended_auction (604800000 + 30 * 60 * 1000) =
    604800000 + 30 * 60 * 1000 /\
  ~ (maybeExtendAuction overextended_auction (604800000 + 30 * 60 * 1000) >=
     Auction.endTime overextended_auction).
Proof.
  split; [reflexivity|]. split; [reflexivity|].
  vm_compute. intros H. apply H. reflexivity.
Qed.

(** C4, amended. For an auction whose end time is within the cap
    ([endTime <= originalEndTime + 30 minutes]), the anti-sniping function
    never returns less than the end time it was given, whatever [now] is;
    when [now] is already past the capped end it returns the capped end. *)
Theorem maybeExtendAuction_never_decreases :
  forall (T : Type) (a : Auction.t T) (now : Z),
    Auction.endTime a <= originalEndTime a + ANTI_SNIPING.MAX_EXTENSION_MS ->
    maybeExtendAuction a now >= Auction.endTime a /\
    (now > originalEndTime a + ANTI_SNIPING.MAX_EXTENSION_MS ->
       maybeExtendAuction a now = originalEndTime a + ANTI_SNIPING.MAX_EXTENSION_MS).
Proof.
  intros T a now Hcap. split.
  - pose proof (maybeExtendAuction_bounds a now Hcap). lia.
  - intros Hpast. rewrite maybeExtendAuction_cases.
    unfold ANTI_SNIPING.WINDOW_MS, ANTI_SNIPING.EXTENSION_MS in *.
    destruct (Z.ltb_spec (Auction.endTime a - now) (2 * 60 * 1000)); [|lia].
    destruct (Z.gtb_spec (now + 2 * 60 * 1000)
                (originalEndTime a + ANTI_SNIPING.MAX_EXTENSION_MS)); lia.
Qed.

(** The amended C4 at the sample auction, one minute before its end. *)
Lemma maybeExtendAuction_never_decreases_witness :
  Auction.endTime sample_auction <=
    originalEndTime sample_auction + ANTI_SNIPING.MAX_EXTENSION_MS /\
  maybeExtendAuction sample_auction (604800000 - 60000) >= Auction.endTime sample_auction.
Proof.
  split.
  - vm_compute. discriminate.
  - apply (maybeExtendAuction_never_decreases Z sample_auction (604800000 - 60000)).
    vm_compute. discriminate.
Defined.

(** ** Runs of the bid path *)

(** Every request is either rejected, leaving the world alone, or accepted,
    applied and published. *)
Lemma placeBid_cases (req : BidRequest) (w : World) :
  (exists e,
     validateBid (auction (ledger w)) (amount req) (userId req) (now req) = inl e /\
     placeBid req w = (inl e, w)) \/
  (exists bidder,
     passes (auction (ledger w)) (userId req) (amount req) (now req) /\
     user req = Some bidder /\
     placeBid req w =
       (inr (snd (applyBid (ledger w) bidder req)),
        {| ledger := fst (applyBid (ledger w) bidder req);
           bidEmitter :=
             snd (emit (fun _ => false) (Auction.id (auction (ledger w)))
                    ("bid"%string, BidData (snd (applyBid (ledger w) bidder req)))
                    (bidEmitter w)) |})).
Proof.
  destruct (validateBid (auction (ledger w)) (amount req) (userId req) (now req))
    as [e|[]] eqn:Hv.
  - left. exists e. split; [reflexivity|]. apply placeBid_rejected, Hv.
  - right. destruct (placeBid_accepted req w Hv) as (bidder & Hu & Hp).
    exists bidder. split; [apply validateBid_ok, Hv|]. split; assumption.
Qed.




(** ** Strictly increasing bids *)













Lemma take_split {A} (j k : nat) (l : list A) :
  (j <= k)%nat -> take k l = take j l ++ drop j (take k l).
Proof.
  intros Hjk. rewrite <- (take_drop j (take k l)) at 1. rewrite take_take.
  f_equal. f_equal. lia.
Qed.



(** ** Rejections *)

(** C6. A bid attempt that admission rejects, whatever the reason, leaves
    the whole state as it was (price, end time, status, winner, bids, and the
    emitter with its call log: no listener is called). A seller bidding on
    their own auction is rejected OWN_AUCTION, with no state change and no
    event published. *)
Theorem rejection_has_no_effect :
  forall (req : BidRequest) (w : World),
    (forall e,
       fst (placeBid req w) = inl e ->
       validateBid (auction (ledger w)) (amount req) (userId req) (now req) = inl e /\
       snd (placeBid req w) = w /\
       auction (ledger (snd (placeBid req w))) = auction (ledger w) /\
       bids (ledger (snd (placeBid req w))) = bids (ledger w) /\
       listeners (bidEmitter (snd (placeBid req w))) = listeners (bidEmitter w) /\
       calls (bidEmitter (snd (placeBid req w))) = calls (bidEmitter w)) /\
    (forall e,
       validateBid (auction (ledger w)) (amount req) (userId req) (now req) = inl e ->
       placeBid req w = (inl e, w)) /\
    (forall u,
       user req = Some u ->
       SessionUser.id u <> ""%string ->
       SessionUser.id u = Auction.sellerId (auction (ledger w)) ->
       placeBid req w = (inl OWN_AUCTION, w)).
Proof.
  intros req w. split; [|split].
  - intros e Hr.
    destruct (placeBid_cases req w) as [(e' & Hv & Hp)|(bidder & _ & _ & Hp)];
      rewrite Hp in Hr; cbn in Hr; [|discriminate].
    injection Hr as <-. rewrite Hp. cbn [snd].
    split; [exact Hv|]. repeat split; reflexivity.
  - intros e Hv. apply placeBid_rejected, Hv.
  - intros u Hu Hne Hid. apply placeBid_rejected, validateBid_own.
    unfold userId, present. rewrite Hu. cbn. split; [eauto|congruence].
Qed.

(** The seller bids 500 on the sample auction: OWN_AUCTION, and the world,
    with its call log, is the one before. *)
Example seller_bids_on_own_auction :
  placeBid {| bidId := "b9"; user := Some seller; amount := 500; now := 1000 |}
    sample_world = (inl OWN_AUCTION, sample_world).
Proof. reflexivity. Qed.

(** ** The emitter *)

Lemma set_add_elem (l x : Listener) (s : list Listener) :
  x ∈ set_add l s <-> x = l \/ x ∈ s.
Proof.
  unfold set_add. case_bool_decide as Hin.
  - split; [auto|]. intros [->|H]; assumption.
  - rewrite elem_of_app, list_elem_of_singleton. tauto.
Qed.

Lemma set_add_NoDup (l : Listener) (s : list Listener) :
  NoDup s -> NoDup (set_add l s).
Proof.
  intros Hs. unfold set_add. case_bool_decide as Hin; [exact Hs|].
  apply NoDup_app. split; [exact Hs|]. split; [|apply NoDup_singleton].
  intros x Hx ->%list_elem_of_singleton. contradiction.
Qed.

Lemma set_delete_elem (l x : Listener) (s : list Listener) :
  x ∈ set_delete l s <-> x <> l /\ x ∈ s.
Proof. unfold set_delete. rewrite list_elem_of_filter. reflexivity. Qed.

Lemma set_delete_NoDup (l : Listener) (s : list Listener) :
  NoDup s -> NoDup (set_delete l s).
Proof. apply NoDup_filter. Qed.

Lemma set_delete_absent (l : Listener) (s : list Listener) :
  l ∉ s -> set_delete l s = s.
Proof.
  intros Hl. unfold set_delete. induction s as [|x s IH]; [reflexivity|].
  apply not_elem_of_cons in Hl as [Hne Hl].
  rewrite filter_cons_True by congruence. f_equal. apply IH, Hl.
Qed.

Lemma set_delete_idemp (l : Listener) (s : list Listener) :
  set_delete l (set_delete l s) = set_delete l s.
Proof.
  apply set_delete_absent. rewrite set_delete_elem. intros [Hne _]. congruence.
Qed.

Section emitter_facts.
Context {E : Type}.
Implicit Types (em : BidEmitter E) (ev : E) (l : Listener) (a : string).

Lemma subscribers_subscribe a a' l em :
  subscribers a' (fst (subscribe a l em)) =
    if bool_decide (a' = a) then set_add l (subscribers a em)
    else subscribers a' em.
Proof.
  unfold subscribers, subscribe. cbn.
  case_bool_decide as Hsome.
  - destruct Hsome as [s Hs]. rewrite Hs. cbn.
    case_bool_decide as Ha.
    + subst. rewrite lookup_insert_eq. reflexivity.
    + rewrite lookup_insert_ne by congruence. reflexivity.
  - apply eq_None_not_Some in Hsome. rewrite Hsome, lookup_insert_eq. cbn.
    case_bool_decide as Ha.
    + subst. rewrite lookup_insert_eq. reflexivity.
    + rewrite !lookup_insert_ne by congruence. reflexivity.
Qed.

Lemma subscribers_unsubscribe a a' l em :
  subscribers a' (unsubscribe a l em) =
    if bool_decide (a' = a) then set_delete l (subscribers a em)
    else subscribers a' em.
Proof.
  unfold subscribers, unsubscribe.
  destruct (listeners em !! a) as [s|] eqn:Hs; cbn.
  - case_bool_decide as Ha.
    + subst. rewrite lookup_insert_eq. reflexivity.
    + rewrite lookup_insert_ne by congruence. reflexivity.
  - case_bool_decide as Ha; [subst; rewrite Hs|]; reflexivity.
Qed.

Lemma emit_spec throws a ev em :
  listeners (snd (emit throws a ev em)) = listeners em /\
  calls (snd (emit throws a ev em)) =
    calls em ++ snd (forEach_call throws (subscribers a em) ev) /\
  fst (emit throws a ev em) = fst (forEach_call throws (subscribers a em) ev).
Proof.
  unfold emit, subscribers.
  destruct (listeners em !! a) as [s|]; cbn.
  - destruct (forEach_call throws s ev) as [c round]. repeat split; reflexivity.
  - rewrite app_nil_r. repeat split; reflexivity.
Qed.

Lemma subscribers_emit throws a a' ev em :
  subscribers a' (snd (emit throws a ev em)) = subscribers a' em.
Proof. unfold subscribers. rewrite (proj1 (emit_spec throws a ev em)). reflexivity. Qed.

Lemma calls_subscribe a l em : calls (fst (subscribe a l em)) = calls em.
Proof. reflexivity. Qed.

Lemma calls_unsubscribe a l em : calls (unsubscribe a l em) = calls em.
Proof. unfold unsubscribe. destruct (listeners em !! a); reflexivity. Qed.

(** The emitter keeps its sets free of duplicates. *)
Lemma emitter_wf_subscribers em a : emitter_wf em -> NoDup (subscribers a em).
Proof.
  intros Hwf. unfold subscribers.
  destruct (listeners em !! a) as [s|] eqn:Hs; cbn; [eapply Hwf, Hs | constructor].
Qed.

Lemma emitter_wf_new : emitter_wf (@new_BidEmitter E).
Proof. intros a s Hs. cbn in Hs. rewrite lookup_empty in Hs. discriminate. Qed.

Lemma emitter_wf_step em (op : BusOp E) :
  emitter_wf em -> emitter_wf (bus_step em op).
Proof.
  intros Hwf a' s' Hs'.
  assert (Hsub : s' = subscribers a' (bus_step em op))
    by (unfold subscribers; rewrite Hs'; reflexivity).
  rewrite Hsub. destruct op as [a l|a l|a ev throws]; cbn [bus_step].
  - rewrite subscribers_subscribe. case_bool_decide.
    + apply set_add_NoDup, emitter_wf_subscribers, Hwf.
    + apply emitter_wf_subscribers, Hwf.
  - rewrite subscribers_unsubscribe. case_bool_decide.
    + apply set_delete_NoDup, emitter_wf_subscribers, Hwf.
    + apply emitter_wf_subscribers, Hwf.
  - rewrite subscribers_emit. apply emitter_wf_subscribers, Hwf.
Qed.

Lemma emitter_wf_run (ops : list (BusOp E)) em :
  emitter_wf em -> emitter_wf (bus_run ops em).
Proof.
  revert em. induction ops as [|op ops IH]; intros em Hwf; [exact Hwf|].
  cbn. apply IH, emitter_wf_step, Hwf.
Qed.



(** One round of calls. *)
Lemma observed_app l (log1 log2 : list (Call E)) :
  observed l (log1 ++ log2) = observed l log1 ++ observed l log2.
Proof. unfold observed. rewrite filter_app, map_app. reflexivity. Qed.

Lemma delivered_app l (log1 log2 : list (Call E)) :
  delivered l (log1 ++ log2) = delivered l log1 ++ delivered l log2.
Proof. unfold delivered. rewrite !filter_app, map_app. reflexivity. Qed.

Lemma forEach_call_cons throws x ev (s : list Listener) :
  forEach_call throws (x :: s) ev =
    if throws x then (Thrown, [mkCall x ev Thrown])
    else (fst (forEach_call throws s ev),
          mkCall x ev Returned :: snd (forEach_call throws s ev)).
Proof.
  cbn [forEach_call]. destruct (throws x); [reflexivity|].
  destruct (forEach_call throws s ev). reflexivity.
Qed.

Lemma forEach_call_absent throws l ev (s : list Listener) :
  l ∉ s -> filter (fun c => callee c = l) (snd (forEach_call throws s ev)) = [].
Proof.
  induction s as [|x s IH]; intros Hl; [reflexivity|].
  apply not_elem_of_cons in Hl as [Hne Hl]. rewrite forEach_call_cons.
  destruct (throws x); cbn [snd];
    rewrite filter_cons_False by (cbn; congruence); [reflexivity | apply IH, Hl].
Qed.

(** No listener is called twice in a round. *)
Lemma forEach_call_once throws l ev (s : list Listener) :
  NoDup s ->
  filter (fun c => callee c = l) (snd (forEach_call throws s ev)) = [] \/
  exists e, filter (fun c => callee c = l) (snd (forEach_call throws s ev)) =
              [mkCall l ev e].
Proof.
  induction 1 as [|x s Hx Hs IH]; [left; reflexivity|].
  rewrite forEach_call_cons. destruct (decide (x = l)) as [->|Hne].
  - right. destruct (throws l); cbn [snd]; rewrite filter_cons_True by reflexivity.
    + exists Thrown. reflexivity.
    + exists Returned. f_equal. apply forEach_call_absent, Hx.
  - destruct (throws x); cbn [snd]; rewrite filter_cons_False by (cbn; congruence).
    + left. reflexivity.
    + exact IH.
Qed.


(** A round in which nobody throws calls every listener of the set. *)
Lemma forEach_call_quiet throws ev (s : list Listener) :
  (forall x, x ∈ s -> throws x = false) ->
  forEach_call throws s ev = (Returned, map (fun x => mkCall x ev Returned) s).
Proof.
  induction s as [|x s IH]; intros Hq; [reflexivity|].
  rewrite forEach_call_cons, (Hq x) by (left; reflexivity).
  rewrite IH by (intros y Hy; apply Hq; right; exact Hy). reflexivity.
Qed.


Lemma calls_to_present l ev (e : Completion) (s : list Listener) :
  NoDup s -> l ∈ s ->
  filter (fun c => callee c = l) (map (fun x => mkCall x ev e) s) = [mkCall l ev e].
Proof.
  induction 1 as [|x s Hx Hs IH]; intros Hl; [inversion Hl|].
  cbn [map]. destruct (decide (x = l)) as [->|Hne].
  - rewrite filter_cons_True by reflexivity. f_equal.
    clear IH Hl Hs. induction s as [|y s IH]; [reflexivity|].
    apply not_elem_of_cons in Hx as [Hne Hx]. cbn [map].
    rewrite filter_cons_False by (cbn; congruence). apply IH, Hx.
  - rewrite filter_cons_False by (cbn; congruence). apply IH.
    apply elem_of_cons in Hl as [->|Hl]; [congruence | exact Hl].
Qed.


Lemma observed_forEach throws l ev (s : list Listener) :
  NoDup s ->
  (observed l (snd (forEach_call throws s ev)) = [] \/
   observed l (snd (forEach_call throws s ev)) = [ev]) /\
  ((forall x, x ∈ s -> throws x = false) -> l ∈ s ->
   observed l (snd (forEach_call throws s ev)) = [ev]).
Proof.
  intros Hs. unfold observed. split.
  - destruct (forEach_call_once throws l ev s Hs) as [->|(e & ->)]; [left | right]; reflexivity.
  - intros Hq Hl. rewrite forEach_call_quiet by exact Hq. cbn [snd].
    rewrite calls_to_present by assumption. reflexivity.
Qed.

(** A listener that stays subscribed sees the publishes in order: all of
    them when no listener throws, and otherwise some of them. *)
Lemma observed_run a l (ops : list (BusOp E)) em :
  emitter_wf em ->
  l ∈ subscribers a em ->
  Forall (keeps_subscribed a l) ops ->
  l ∈ subscribers a (bus_run ops em) /\
  exists received,
    observed l (calls (bus_run ops em)) = observed l (calls em) ++ received /\
    received `sublist_of` published a ops /\
    (Forall quiet ops -> received = published a ops).
Proof.
  revert em. induction ops as [|op ops IH]; intros em Hwf Hl Hops.
  - split; [exact Hl|]. exists []. cbn. rewrite app_nil_r.
    split; [reflexivity|]. split; [constructor | reflexivity].
  - inversion Hops as [|? ? Hop Hrest]; subst.
    cbn [bus_run fold_left]. fold (bus_run ops (bus_step em op)).
    assert (Hl' : l ∈ subscribers a (bus_step em op)).
    { destruct op as [a' l'|a' l'|a' ev throws]; cbn [bus_step].
      - rewrite subscribers_subscribe. case_bool_decide as Ha; [|exact Hl].
        subst. apply set_add_elem. right. exact Hl.
      - rewrite subscribers_unsubscribe. case_bool_decide as Ha; [|exact Hl].
        subst. apply set_delete_elem. split; [|exact Hl].
        intros ->. apply Hop. split; reflexivity.
      - rewrite subscribers_emit. exact Hl. }
    destruct (IH (bus_step em op) (emitter_wf_step em op Hwf) Hl' Hrest)
      as (Hin & received & Hobs & Hsub & Hall).
    split; [exact Hin|]. rewrite Hobs.
    destruct op as [a' l'|a' l'|a' ev throws]; cbn [bus_step published].
    + exists received. rewrite calls_subscribe. split; [reflexivity|].
      split; [exact Hsub|]. intros Hq. apply Hall. inversion Hq; assumption.
    + exists received. rewrite calls_unsubscribe. split; [reflexivity|].
      split; [exact Hsub|]. intros Hq. apply Hall. inversion Hq; assumption.
    + cbn in Hop. subst a'. rewrite bool_decide_true by reflexivity.
      rewrite (proj1 (proj2 (emit_spec throws a ev em))), observed_app.
      pose proof (emitter_wf_subscribers em a Hwf) as Hnd.
      destruct (observed_forEach throws l ev (subscribers a em) Hnd) as (Hround & Hquiet).
      exists (observed l (snd (forEach_call throws (subscribers a em) ev)) ++ received).
      split; [rewrite app_assoc; reflexivity|]. split.
      * destruct Hround as [->| ->]; cbn [app];
          [apply sublist_cons | apply sublist_skip]; exact Hsub.
      * intros Hq. inversion Hq as [|? ? Hq1 Hq2]; subst. cbn in Hq1.
        rewrite Hquiet by (intros; auto). rewrite (Hall Hq2). reflexivity.
Qed.
End emitter_facts.



Lemma unsubscribe_twice {E} (a : string) (l : Listener) (em : BidEmitter E) :
  unsubscribe a l (unsubscribe a l em) = unsubscribe a l em.
Proof.
  unfold unsubscribe at 2 3. destruct (listeners em !! a) as [s|] eqn:Hs.
  - unfold unsubscribe. cbn. rewrite lookup_insert_eq, insert_insert_eq, set_delete_idemp.
    reflexivity.
  - unfold unsubscribe. rewrite Hs. reflexivity.
Qed.

Lemma unsubscribe_absent {E} (a : string) (l : Listener) (em : BidEmitter E) :
  l ∉ subscribers a em -> unsubscribe a l em = em.
Proof.
  unfold subscribers, unsubscribe. destruct em as [m log]. cbn.
  destruct (m !! a) as [s|] eqn:Hs; cbn; [|reflexivity].
  intros Hl. rewrite set_delete_absent by exact Hl. rewrite insert_id by exact Hs.
  reflexivity.
Qed.

(** C9. The handle [subscribe] returns is idempotent: calling it twice (or
    any number of times) leaves the emitter exactly as calling it once, and
    calling it when the listener is already gone changes nothing. Being a
    total function of the emitter, it never throws. *)
Theorem unsubscribe_idempotent :
  forall (E : Type) (em : BidEmitter E) (a : string) (l : Listener),
    let em1 := fst (subscribe a l em) in
    let handle := snd (subscribe a l em) in
    l ∈ subscribers a em1 /\
    (l ∉ subscribers a (handle em1)) /\
    handle (handle em1) = handle em1 /\
    (forall em', handle (handle em') = handle em') /\
    (forall em', l ∉ subscribers a em' -> handle em' = em') /\
    (forall n, Nat.iter (S n) handle em1 = handle em1).
Proof.
  intros E em a l em1 handle.
  assert (Hh : handle = unsubscribe a l) by reflexivity.
  assert (Hidem : forall em', handle (handle em') = handle em')
    by (intros em'; rewrite Hh; apply unsubscribe_twice).
  split; [|split; [|split; [|split; [|split]]]].
  - subst em1. rewrite subscribers_subscribe, bool_decide_true by reflexivity.
    apply set_add_elem. left. reflexivity.
  - rewrite Hh, subscribers_unsubscribe, bool_decide_true by reflexivity.
    rewrite set_delete_elem. intros [Hne _]. congruence.
  - apply Hidem.
  - exact Hidem.
  - intros em' Hl. rewrite Hh. apply unsubscribe_absent, Hl.
  - induction n as [|n IH]; [reflexivity|].
    change (Nat.iter (S (S n)) handle em1) with (handle (Nat.iter (S n) handle em1)).
    rewrite IH. apply Hidem.
Qed.

(** ** Route protection *)

Lemma startsWith_spec (s searchString : string) :
  startsWith s searchString = true <-> exists rest, s = (searchString ++ rest)%string.
Proof.
  unfold startsWith. revert searchString.
  induction s as [|c s IH]; intros [|d p]; cbn.
  - split; [exists ""%string; reflexivity | reflexivity].
  - split; [discriminate | intros (rest & Hrest); discriminate].
  - split; [exists (String c s); reflexivity | reflexivity].
  - destruct (Ascii.ascii_dec d c) as [->|Hne].
    + rewrite IH. split; intros (rest & Hrest); exists rest.
      * cbn. rewrite Hrest. reflexivity.
      * cbn in Hrest. injection Hrest as ->. reflexivity.
    + split; [discriminate|]. intros (rest & Hrest). cbn in Hrest.
      injection Hrest as Hc _. congruence.
Qed.

Lemma isProtectedRoute_or_isAdminRoute (pathname : string) :
  existsb (fun route => startsWith pathname route) protectedRoutes
  || existsb (fun route => startsWith pathname route) adminRoutes = true <->
  guarded pathname.
Proof.
  unfold protectedRoutes, adminRoutes, guarded. cbn [existsb].
  rewrite !orb_false_r, !orb_true_iff, !startsWith_spec.
  split.
  - intros [[(r & Hr)|(r & Hr)]|(r & Hr)]; exists r; tauto.
  - intros (r & [Hr|[Hr|Hr]]); eauto.
Qed.

Lemma isAdminRoute (pathname : string) :
  existsb (fun route => startsWith pathname route) adminRoutes = true <->
  admin_path pathname.
Proof.
  unfold adminRoutes, admin_path. cbn [existsb].
  rewrite orb_false_r. apply startsWith_spec.
Qed.

Lemma session_user_authenticated (auth : option Session) :
  auth ≫= session_user = authenticated auth.
Proof. destruct auth; reflexivity. Qed.

(** C10. For a pathname that starts with [/dashboard], [/auctions/create] or
    [/admin]: without an authenticated session user the middleware redirects
    to [/login] with the pathname as [callbackUrl]; with a user who is not an
    ADMIN on a pathname that starts with [/admin] it redirects to [/]. In
    every other case, all other pathnames included, it answers
    [NextResponse.next()]. *)
Theorem middleware_route_protection :
  forall (request : NextRequest) (auth : option Session),
    let pathname := URL.pathname (nextUrl request) in
    (guarded pathname -> authenticated auth = None ->
       middleware request auth = login_redirect request) /\
    (forall u, admin_path pathname -> authenticated auth = Some u ->
       SessionUser.role u <> ADMIN ->
       middleware request auth = home_redirect request) /\
    (forall u, guarded pathname -> authenticated auth = Some u ->
       ~ admin_path pathname \/ SessionUser.role u = ADMIN ->
       middleware request auth = next) /\
    (~ guarded pathname -> middleware request auth = next) /\
    (middleware request auth = login_redirect request \/
     middleware request auth = home_redirect request \/
     middleware request auth = next).
Proof.
  intros request auth pathname.
  pose proof (isProtectedRoute_or_isAdminRoute pathname) as Hg.
  pose proof (isAdminRoute pathname) as Ha.
  assert (Hm : middleware request auth =
    if existsb (fun route => startsWith pathname route) protectedRoutes
       || existsb (fun route => startsWith pathname route) adminRoutes
    then match authenticated auth with
         | None => login_redirect request
         | Some u =>
             if existsb (fun route => startsWith pathname route) adminRoutes
                && negb (bool_decide (SessionUser.role u = ADMIN))
             then home_redirect request else next
         end
    else next).
  { unfold middleware. fold pathname. rewrite session_user_authenticated. reflexivity. }
  rewrite Hm. clear Hm.
  destruct (existsb _ protectedRoutes || existsb _ adminRoutes).
  - destruct (authenticated auth) as [u|].
    + destruct (existsb _ adminRoutes).
      * case_bool_decide as Hrole; cbn [andb negb].
        -- repeat split; try discriminate; auto.
           intros u' _ [= <-] Hn. contradiction.
        -- repeat split; try discriminate; auto.
           ++ intros u' _ [= <-] [Hn|Hr]; [|contradiction].
              exfalso. apply Hn, Ha. reflexivity.
           ++ intros Hn. exfalso. apply Hn, Hg. reflexivity.
      * cbn [andb]. repeat split; try discriminate; auto.
        intros u' Hadm. apply Ha in Hadm. discriminate.
    + repeat split; try discriminate; auto.
      intros Hn. exfalso. apply Hn, Hg. reflexivity.
  - assert (Hng : ~ guarded pathname) by (intros H; apply Hg in H; discriminate).
    repeat split; auto; try (intros; contradiction).
    intros u Hadm. exfalso. apply Hng.
    destruct Hadm as (r & Hr). exists r. tauto.
Qed.

(** ** The sample run, evaluated *)

Example validateBid_sample :
  validateBid sample_auction 103 (Some "alice"%string) 1000 = inl (TOO_LOW 105) /\
  validateBid sample_auction 105 (Some "alice"%string) 1000 = inr tt /\
  validateBid sample_auction 105 None 1000 = inl AUTH_REQUIRED /\
  validateBid sample_auction 105 (Some ""%string) 1000 = inl AUTH_REQUIRED /\
  validateBid sample_auction 50 (Some "seller"%string) 604800001 = inl OWN_AUCTION /\
  validateBid sample_auction 50 (Some "alice"%string) 604800001 = inl ENDED /\
  validateBid sample_auction 50 (Some "alice"%string) 604800000 = inl (TOO_LOW 105).
Proof. repeat split; reflexivity. Qed.

(** The same on the code's numbers. *)
Example validateBid_number_sample :
  validateBid (priced_auction 100%float 5%float) 103%float (Some "alice"%string) 1000 =
    inl (TOO_LOW 105%float) /\
  validateBid (priced_auction 100%float 5%float) 105%float (Some "alice"%string) 1000 =
    inr tt /\
  validateBid (priced_auction 100%float 5%float) 105%float None 1000 =
    inl AUTH_REQUIRED /\
  validateBid (priced_auction 100%float 5%float) 50%float (Some "seller"%string)
    604800001 = inl OWN_AUCTION /\
  validateBid (priced_auction 100%float 5%float) 50%float (Some "alice"%string)
    604800001 = inl ENDED.
Proof. repeat split; reflexivity. Qed.

Example maybeExtendAuction_sample :
  (* three minutes before the end: unchanged *)
  maybeExtendAuction sample_auction (604800000 - 180000) = 604800000 /\
  (* exactly two minutes before the end: unchanged *)
  maybeExtendAuction sample_auction (604800000 - 120000) = 604800000 /\
  (* one minute before the end: now plus two minutes *)
  maybeExtendAuction sample_auction (604800000 - 60000) = 604800000 + 60000 /\
  (* 29 minutes after the original end: capped at 30 minutes *)
  maybeExtendAuction sample_auction (604800000 + 29 * 60000) = 604800000 + 30 * 60000.
Proof. repeat split; reflexivity. Qed.

Example serve_sample :
  map outcome (fst (serve sample_requests sample_world)) =
    [Rejected (TOO_LOW 105); Accepted; Rejected (TOO_LOW 110); Accepted] /\
  price (after sample_requests sample_world) = 110 /\
  Auction.endTime (auction (after sample_requests sample_world)) = 604800000 + 60000 /\
  map callee (calls (bidEmitter (snd (serve sample_requests sample_world)))) =
    [1%nat; 2%nat; 1%nat; 2%nat].
Proof. repeat split; reflexivity. Qed.

Example sample_world_reachable :
  bidEmitter sample_world =
    bus_run [Subscribe "auction-1" 1%nat; Subscribe "auction-1" 2%nat;
             Subscribe "auction-2" 3%nat; Subscribe "auction-1" 1%nat]
            new_BidEmitter.
Proof. reflexivity. Qed.

Example unsubscribe_sample :
  let em := bidEmitter sample_world in
  subscribers "auction-1" (unsubscribe "auction-1" 1%nat em) = [2%nat] /\
  unsubscribe "auction-1" 1%nat (unsubscribe "auction-1" 1%nat em) =
    unsubscribe "auction-1" 1%nat em /\
  unsubscribe "auction-9" 1%nat em = em.
Proof. repeat split; reflexivity. Qed.

Example middleware_sample :
  let request path :=
    {| nextUrl := {| URL.origin := "https://periwinkle.example";
                     URL.pathname := path;
                     URL.searchParams := [("tab", "bids")]%string |} |} in
  let session u := Some {| session_user := Some u |} in
  middleware (request "/dashboard/bids"%string) None =
    redirect {| URL.origin := "https://periwinkle.example";
                URL.pathname := "/login";
                URL.searchParams := [("callbackUrl", "/dashboard/bids")]%string |} /\
  middleware (request "/dashboard/bids"%string) (Some {| session_user := None |}) =
    login_redirect (request "/dashboard/bids"%string) /\
  middleware (request "/dashboard/bids"%string) (session alice) = next /\
  middleware (request "/admin/users"%string) (session alice) =
    redirect {| URL.origin := "https://periwinkle.example";
                URL.pathname := "/";
                URL.searchParams := [] |} /\
  middleware (request "/admin/users"%string) (session root) = next /\
  middleware (request "/auctions/42"%string) None = next.
Proof. repeat split; reflexivity. Qed.

(** * Further properties of the code *)

(** ** More on [validateBid] *)

Lemma validateBid_too_low (a : Auction) (bidAmount : Z) (userId : option string)
    (now m : Z) :
  validateBid a bidAmount userId now = inl (TOO_LOW m) <->
  eligible a userId now /\
  bidAmount < Auction.currentPrice a + Auction.bidIncrement a /\
  m = Auction.currentPrice a + Auction.bidIncrement a.
Proof.
  rewrite validateBid_exact. unfold eligible.
  pose proof (truthy_present userId) as Ht.
  pose proof (strict_eq_spec (Auction.sellerId a) userId) as Hs.
  destruct (truthy userId).
  2:{ split; [discriminate|]. intros ((Hp & _) & _). apply Ht in Hp. discriminate. }
  destruct (strict_eq _ _).
  { split; [discriminate|]. intros ((_ & Hn & _) & _). exfalso. apply Hn, Hs. reflexivity. }
  case_bool_decide as Hst.
  2:{ split; [discriminate|]. intros ((_ & _ & Hact & _) & _). contradiction. }
  destruct (Z.gtb_spec now (Auction.endTime a)).
  { split; [discriminate|]. intros ((_ & _ & _ & Hle) & _). lia. }
  destruct (Z.ltb_spec bidAmount (Auction.currentPrice a + Auction.bidIncrement a)).
  2:{ split; [discriminate|]. intros (_ & Hlt & _). lia. }
  split.
  - intros [= <-]. repeat split; [apply Ht; reflexivity | | assumption | lia | lia].
    intros Heq. apply Hs in Heq. discriminate.
  - intros (_ & _ & ->). reflexivity.
Qed.

(** Comparing binary64 values the other way round. *)
Lemma SFcompare_antisym (x y : spec_float) :
  SFcompare y x = option_map CompOpp (SFcompare x y).
Proof.
  destruct x as [sx|sx| |sx mx ex], y as [sy|sy| |sy my ey]; cbn;
    try reflexivity; try (destruct sx; reflexivity); try (destruct sy; reflexivity);
    try (destruct sx, sy; reflexivity).
  destruct sx, sy; try reflexivity; f_equal;
    rewrite (Z.compare_antisym ex ey); destruct (ex ?= ey) eqn:He; cbn; try reflexivity.
  - f_equal. symmetry. apply (Pos.compare_cont_antisym mx my Eq).
  - symmetry. apply (Pos.compare_cont_antisym mx my Eq).
Qed.

(** No number is below itself, and none is below one it is at most. *)
Lemma number_lt_irrefl (x : number) : PrimFloat.ltb x x = false.
Proof.
  rewrite FloatAxioms.ltb_spec. unfold SFltb.
  pose proof (SFcompare_antisym (Prim2SF x) (Prim2SF x)) as H.
  destruct (SFcompare (Prim2SF x) (Prim2SF x)) as [[]|]; try reflexivity. discriminate.
Qed.

Lemma number_le_not_lt (x y : number) :
  PrimFloat.leb x y = true -> PrimFloat.ltb y x = false.
Proof.
  rewrite FloatAxioms.leb_spec, FloatAxioms.ltb_spec. unfold SFleb, SFltb.
  rewrite (SFcompare_antisym (Prim2SF x) (Prim2SF y)).
  destruct (SFcompare (Prim2SF x) (Prim2SF y)) as [[]|]; cbn; congruence.
Qed.

(** X1. The minimum that TOO_LOW reports is exactly the least amount that is
    accepted: bidding it passes, and every lower amount is rejected with the
    same minimum; on the code's numbers, and on exact amounts. *)
Theorem validateBid_retry_with_minBid :
  (forall (a : Auction.t number) (bidAmount : number) (userId : option string)
          (now : Z) (minBid : number),
     validateBid a bidAmount userId now = inl (TOO_LOW minBid) ->
     validateBid a minBid userId now = inr tt /\
     (forall higher, PrimFloat.leb minBid higher = true ->
        validateBid a higher userId now = inr tt) /\
     (forall lower, PrimFloat.ltb lower minBid = true ->
        validateBid a lower userId now = inl (TOO_LOW minBid))) /\
  (forall (a : Auction) (bidAmount : Z) (userId : option string) (now minBid : Z),
     validateBid a bidAmount userId now = inl (TOO_LOW minBid) ->
     validateBid a minBid userId now = inr tt /\
     (forall higher, minBid <= higher -> validateBid a higher userId now = inr tt) /\
     (forall lower, lower < minBid ->
        validateBid a lower userId now = inl (TOO_LOW minBid))).
Proof.
  split.
  - intros a bidAmount userId now minBid Hlow.
    apply (proj1 (validateBid_last_check a bidAmount userId now)) in Hlow
      as (Hel & _ & ->).
    split; [|split].
    + apply (proj2 (validateBid_last_check a _ userId now)).
      split; [exact Hel | apply number_lt_irrefl].
    + intros higher Hh. apply (proj2 (validateBid_last_check a _ userId now)).
      split; [exact Hel | apply number_le_not_lt, Hh].
    + intros lower Hl. apply (proj1 (validateBid_last_check a _ userId now)).
      split; [exact Hel | split; [exact Hl | reflexivity]].
  - intros a bidAmount userId now minBid Hlow.
    apply validateBid_too_low in Hlow as (Hel & _ & ->).
    split; [|split].
    + apply validateBid_ok. split; [exact Hel | lia].
    + intros higher Hh. apply validateBid_ok. split; [exact Hel | lia].
    + intros lower Hl. apply validateBid_too_low.
      split; [exact Hel|]. split; [lia | reflexivity].
Qed.

Lemma validateBid_retry_with_minBid_witness :
  (validateBid (priced_auction 100%float 5%float) 103%float (Some "alice"%string) 1000 =
     inl (TOO_LOW 105%float) /\
   validateBid (priced_auction 100%float 5%float) 105%float (Some "alice"%string) 1000 =
     inr tt) /\
  validateBid sample_auction 103 (Some "alice"%string) 1000 = inl (TOO_LOW 105) /\
  validateBid sample_auction 105 (Some "alice"%string) 1000 = inr tt.
Proof.
  split; [split; [reflexivity|]|split; [reflexivity|]].
  - exact (proj1 (proj1 validateBid_retry_with_minBid
                    (priced_auction 100%float 5%float) 103%float (Some "alice"%string)
                    1000 105%float eq_refl)).
  - exact (proj1 (proj2 validateBid_retry_with_minBid sample_auction 103
                    (Some "alice"%string) 1000 105 eq_refl)).
Defined.

(** X2. The amount matters to TOO_LOW only: a bid rejected for any other
    reason is rejected for that reason whatever amount is offered. *)
Theorem validateBid_amount_only_for_TOO_LOW :
  forall (T : Type) (arithmetic : Number T) (a : Auction.t T) (bidAmount : T)
         (userId : option string) (now : Z) (e : BidErrorOf T),
    validateBid a bidAmount userId now = inl e ->
    (forall m, e <> TOO_LOW m) ->
    forall other, validateBid a other userId now = inl e.
Proof.
  intros T arithmetic a bidAmount userId now e Hrej Hnot other.
  rewrite validateBid_cascade in *.
  destruct (truthy userId); [|exact Hrej].
  destruct (strict_eq _ _); [exact Hrej|].
  destruct (bool_decide _); [|exact Hrej].
  destruct (now >? _); [exact Hrej|].
  destruct (num_lt bidAmount _); [|discriminate].
  injection Hrej as <-. exfalso. eapply Hnot. reflexivity.
Qed.

Lemma validateBid_amount_only_for_TOO_LOW_witness :
  validateBid (priced_auction 100%float 5%float) 1000000%float
    (Some "seller"%string) 1000 = inl OWN_AUCTION.
Proof.
  apply (validateBid_amount_only_for_TOO_LOW number _ (priced_auction 100%float 5%float)
           1%float (Some "seller"%string) 1000 OWN_AUCTION eq_refl).
  intros m. discriminate.
Defined.

(** Adding a zero changes nothing that [<] can see. *)
Lemma number_add_zero (x z : number) :
  PrimFloat.eqb z 0%float = true -> PrimFloat.ltb x (PrimFloat.add x z) = false.
Proof.
  rewrite FloatAxioms.eqb_spec, FloatAxioms.ltb_spec, FloatAxioms.add_spec.
  change (Prim2SF 0%float) with (S754_zero false).
  pose proof (SFcompare_antisym (Prim2SF x) (Prim2SF x)) as Hx.
  unfold SFltb in *.
  destruct (Prim2SF z) as [sz|sz| |sz mz ez]; cbn;
    [intros _ | destruct sz; discriminate | discriminate | destruct sz; discriminate].
  unfold SF64add.
  destruct (Prim2SF x) as [sx|sx| |sx mx ex]; cbn [SFadd]; try reflexivity.
  - destruct sx, sz; reflexivity.
  - destruct sx; reflexivity.
  - destruct (SFcompare (S754_finite sx mx ex) (S754_finite sx mx ex)) as [[]|];
      try reflexivity. discriminate.
Qed.

(** X3. [validateBid] compares against current price plus increment and
    nothing else. On the code's numbers a bid of exactly that sum is accepted
    whatever the increment, and with an increment of zero so is a bid equal to
    the current price; on exact amounts, with an increment that is not
    positive, a bid equal to the current price (or as far below it as the
    increment is negative) is accepted. *)
Theorem validateBid_needs_positive_increment :
  (forall (a : Auction.t number) (userId : option string) (now : Z),
     eligible a userId now ->
     validateBid a (PrimFloat.add (Auction.currentPrice a) (Auction.bidIncrement a))
       userId now = inr tt /\
     (PrimFloat.eqb (Auction.bidIncrement a) 0%float = true ->
      validateBid a (Auction.currentPrice a) userId now = inr tt)) /\
  (forall (a : Auction) (userId : option string) (now : Z),
     eligible a userId now ->
     Auction.bidIncrement a <= 0 ->
     validateBid a (Auction.currentPrice a) userId now = inr tt /\
     validateBid a (Auction.currentPrice a + Auction.bidIncrement a) userId now = inr tt).
Proof.
  split.
  - intros a userId now Hel. split.
    + apply (proj2 (validateBid_last_check a _ userId now)).
      split; [exact Hel | apply number_lt_irrefl].
    + intros Hzero. apply (proj2 (validateBid_last_check a _ userId now)).
      split; [exact Hel | apply number_add_zero, Hzero].
  - intros a userId now Hel Hinc.
    split; apply validateBid_ok; (split; [exact Hel | lia]).
Qed.

Lemma validateBid_needs_positive_increment_witness :
  validateBid (priced_auction 100%float (-5)%float) 95%float (Some "alice"%string) 1000 =
    inr tt /\
  validateBid (free_bidding_auction) 100 (Some "alice"%string) 1000 = inr tt.
Proof.
  split.
  - refine (proj1 (proj1 validateBid_needs_positive_increment
                     (priced_auction 100%float (-5)%float) (Some "alice"%string) 1000 _)).
    split; [exists "alice"%string; split; [reflexivity | discriminate]|].
    split; [discriminate|]. split; [reflexivity|]. vm_compute. discriminate.
  - apply (proj2 validateBid_needs_positive_increment free_bidding_auction
             (Some "alice"%string) 1000).
    + split; [exists "alice"%string; split; [reflexivity | discriminate]|].
      split; [discriminate|]. split; [reflexivity|]. vm_compute. discriminate.
    + vm_compute. discriminate.
Defined.

(** [NaN] is below nothing, and nothing is below it. *)
Lemma number_lt_nan (x : number) :
  PrimFloat.ltb PrimFloat.nan x = false /\ PrimFloat.ltb x PrimFloat.nan = false.
Proof.
  rewrite !FloatAxioms.ltb_spec. split; [reflexivity|].
  change (Prim2SF PrimFloat.nan) with S754_nan.
  destruct (Prim2SF x); reflexivity.
Qed.

Lemma number_add_nan (x : number) :
  PrimFloat.add PrimFloat.nan x = PrimFloat.nan /\
  PrimFloat.add x PrimFloat.nan = PrimFloat.nan.
Proof.
  split; apply FloatAxioms.Prim2SF_inj; rewrite FloatAxioms.add_spec;
    change (Prim2SF PrimFloat.nan) with S754_nan; [reflexivity|].
  destruct (Prim2SF x); reflexivity.
Qed.

(** X28. On the code's numbers the minimum bid gives no protection against
    [NaN]: a bid of [NaN] passes for every eligible bidder, and when the
    current price or the increment is [NaN] every bid does. *)
Theorem validateBid_NaN :
  forall (a : Auction.t number) (userId : option string) (now : Z),
    eligible a userId now ->
    validateBid a PrimFloat.nan userId now = inr tt /\
    (Auction.currentPrice a = PrimFloat.nan \/ Auction.bidIncrement a = PrimFloat.nan ->
     forall bidAmount, validateBid a bidAmount userId now = inr tt).
Proof.
  intros a userId now Hel. split.
  - apply (proj2 (validateBid_last_check a PrimFloat.nan userId now)).
    split; [exact Hel|]. apply number_lt_nan.
  - intros Hnan bidAmount.
    apply (proj2 (validateBid_last_check a bidAmount userId now)).
    split; [exact Hel|]. cbn [num_lt num_add number_Number].
    destruct Hnan as [-> | ->];
      [rewrite (proj1 (number_add_nan _)) | rewrite (proj2 (number_add_nan _))];
      apply number_lt_nan.
Qed.

Lemma validateBid_NaN_witness :
  validateBid (priced_auction 100%float 5%float) PrimFloat.nan
    (Some "alice"%string) 1000 = inr tt.
Proof.
  refine (proj1 (validateBid_NaN (priced_auction 100%float 5%float)
                   (Some "alice"%string) 1000 _)).
  split; [exists "alice"%string; split; [reflexivity | discriminate]|].
  split; [discriminate|]. split; [reflexivity|]. vm_compute. discriminate.
Defined.

(** ** More on [maybeExtendAuction] *)

(** X4. Extending is idempotent at one instant: once the end time has been
    replaced by the result, asking again at the same [now] gives the same
    result, so two bids in the same millisecond extend once. *)
Theorem maybeExtendAuction_idempotent :
  forall (T : Type) (a : Auction.t T) (now : Z),
    maybeExtendAuction (with_endTime a (maybeExtendAuction a now)) now =
    maybeExtendAuction a now.
Proof.
  intros T a now. rewrite !maybeExtendAuction_cases.
  unfold with_endTime, originalEndTime,
    ANTI_SNIPING.WINDOW_MS, ANTI_SNIPING.EXTENSION_MS, ANTI_SNIPING.MAX_EXTENSION_MS.
  cbn [set_price_and_end Auction.endTime Auction.startTime Auction.duration].
  destruct (Z.ltb_spec (Auction.endTime a - now) (2 * 60 * 1000)) as [Hin|Hout].
  - destruct (Z.gtb_spec (now + 2 * 60 * 1000)
                (Auction.startTime a + Auction.duration a + 30 * 60 * 1000)) as [Hcap|Hfit].
    + destruct (Z.ltb_spec (Auction.startTime a + Auction.duration a + 30 * 60 * 1000 - now)
                  (2 * 60 * 1000)); [reflexivity | lia].
    + destruct (Z.ltb_spec (now + 2 * 60 * 1000 - now) (2 * 60 * 1000)); [lia | reflexivity].
  - destruct (Z.ltb_spec (Auction.endTime a - now) (2 * 60 * 1000)); [lia | reflexivity].
Qed.

(** X5. Upper bounds that hold for every auction and every [now]: the result
    is never later than both the old end time and [now] plus two minutes, and
    never later than both the old end time and the capped end; whenever it
    differs from the old end time, the bid came inside the window. *)
Theorem maybeExtendAuction_upper_bounds :
  forall (T : Type) (a : Auction.t T) (now : Z),
    let r := maybeExtendAuction a now in
    r <= Z.max (Auction.endTime a) (now + ANTI_SNIPING.EXTENSION_MS) /\
    r <= Z.max (Auction.endTime a) (originalEndTime a + ANTI_SNIPING.MAX_EXTENSION_MS) /\
    (r <> Auction.endTime a -> Auction.endTime a - now < ANTI_SNIPING.WINDOW_MS) /\
    (now <= Auction.endTime a -> r - Auction.endTime a <= ANTI_SNIPING.EXTENSION_MS).
Proof.
  intros T a now r. subst r. rewrite maybeExtendAuction_cases.
  unfold ANTI_SNIPING.WINDOW_MS, ANTI_SNIPING.EXTENSION_MS, ANTI_SNIPING.MAX_EXTENSION_MS.
  destruct (Z.ltb_spec (Auction.endTime a - now) (2 * 60 * 1000)).
  - destruct (Z.gtb_spec (now + 2 * 60 * 1000) (originalEndTime a + 30 * 60 * 1000)); lia.
  - lia.
Qed.

(** X6. Within the cap, a later bid never yields an earlier end. *)
Theorem maybeExtendAuction_monotone_in_now :
  forall (T : Type) (a : Auction.t T) (now1 now2 : Z),
    Auction.endTime a <= originalEndTime a + ANTI_SNIPING.MAX_EXTENSION_MS ->
    now1 <= now2 ->
    maybeExtendAuction a now1 <= maybeExtendAuction a now2.
Proof.
  intros T a now1 now2 Hcap Hle. rewrite !maybeExtendAuction_cases.
  unfold ANTI_SNIPING.WINDOW_MS, ANTI_SNIPING.EXTENSION_MS, ANTI_SNIPING.MAX_EXTENSION_MS in *.
  destruct (Z.ltb_spec (Auction.endTime a - now1) (2 * 60 * 1000));
    destruct (Z.ltb_spec (Auction.endTime a - now2) (2 * 60 * 1000));
    repeat match goal with |- context [?x >? ?y] => destruct (Z.gtb_spec x y) end; lia.
Qed.

Lemma maybeExtendAuction_monotone_in_now_witness :
  maybeExtendAuction sample_auction (604800000 - 180000) <=
  maybeExtendAuction sample_auction (604800000 - 60000).
Proof.
  apply (maybeExtendAuction_monotone_in_now Z sample_auction).
  - vm_compute. discriminate.
  - lia.
Defined.

Lemma extended_snoc {T} (a : Auction.t T) (times : list Z) (now : Z) :
  extended a (times ++ [now]) =
    with_endTime (extended a times) (maybeExtendAuction (extended a times) now).
Proof. unfold extended. rewrite fold_left_app. reflexivity. Qed.

Lemma extended_within_cap {T} (a : Auction.t T) (times : list Z) :
  Auction.endTime a <= originalEndTime a + ANTI_SNIPING.MAX_EXTENSION_MS ->
  originalEndTime (extended a times) = originalEndTime a /\
  Auction.endTime a <= Auction.endTime (extended a times) <=
    originalEndTime a + ANTI_SNIPING.MAX_EXTENSION_MS.
Proof.
  intros Hcap. induction times as [|now times IH] using rev_ind.
  - split; [reflexivity | cbn; lia].
  - destruct IH as (Horig & Hend). rewrite extended_snoc.
    pose proof (maybeExtendAuction_bounds (extended a times) now) as Hb.
    rewrite Horig in Hb. specialize (Hb (proj2 Hend)).
    split; [exact Horig|]. cbn [with_endTime set_price_and_end Auction.endTime]. lia.
Qed.

(** X29. An auction whose end time is replaced by the result of
    [maybeExtendAuction] at every bid, starting within the cap (as a fresh
    auction does, its end time being the original one), never ends earlier
    than it did before and never later than the original end plus 30
    minutes, whatever the times of the bids; its original end stays the
    same. *)
Theorem repeated_extension_within_cap :
  forall (T : Type) (a : Auction.t T) (times : list Z),
    Auction.endTime a <= originalEndTime a + ANTI_SNIPING.MAX_EXTENSION_MS ->
    (forall k,
       originalEndTime (extended a (take k times)) = originalEndTime a /\
       Auction.endTime a <= Auction.endTime (extended a (take k times)) /\
       Auction.endTime (extended a (take k times)) - originalEndTime a <= 30 * 60 * 1000) /\
    (forall j k, (j <= k)%nat ->
       Auction.endTime (extended a (take j times)) <=
       Auction.endTime (extended a (take k times))) /\
    (Auction.endTime a = originalEndTime a ->
     forall k, originalEndTime a <= Auction.endTime (extended a (take k times))).
Proof.
  intros T a times Hcap.
  assert (Hk : forall k,
    originalEndTime (extended a (take k times)) = originalEndTime a /\
    Auction.endTime a <= Auction.endTime (extended a (take k times)) /\
    Auction.endTime (extended a (take k times)) - originalEndTime a <= 30 * 60 * 1000).
  { intros k. destruct (extended_within_cap a (take k times) Hcap) as (Ho & He).
    unfold ANTI_SNIPING.MAX_EXTENSION_MS in He. repeat split; [exact Ho | lia | lia]. }
  split; [exact Hk|]. split.
  - intros j k Hjk. rewrite (take_split j k times Hjk).
    unfold extended at 2. rewrite fold_left_app.
    fold (extended a (take j times)).
    fold (extended (extended a (take j times)) (drop j (take k times))).
    destruct (Hk j) as (Ho & _ & He).
    apply (extended_within_cap (extended a (take j times))).
    rewrite Ho. unfold ANTI_SNIPING.MAX_EXTENSION_MS. lia.
  - intros Hfresh k. destruct (Hk k) as (_ & He & _). lia.
Qed.

Lemma repeated_extension_within_cap_witness :
  Auction.endTime
    (extended sample_auction
       [604800000 - 60000; 604800000; 604800000 + 29 * 60000; 604800000 + 31 * 60000]) -
  originalEndTime sample_auction <= 30 * 60 * 1000.
Proof.
  apply (proj1 (repeated_extension_within_cap Z sample_auction
                  [604800000 - 60000; 604800000; 604800000 + 29 * 60000;
                   604800000 + 31 * 60000]
                  ltac:(vm_compute; discriminate)) 4%nat).
Defined.

(** ** More on [middleware] *)

Lemma middleware_outcomes (request : NextRequest) (auth : option Session) :
  middleware request auth = login_redirect request \/
  middleware request auth = home_redirect request \/
  middleware request auth = next.
Proof.
  unfold middleware. rewrite session_user_authenticated.
  destruct (_ || _); [|auto].
  destruct (authenticated auth) as [u|]; [|auto].
  destruct (_ && _); auto.
Qed.

(** X7. Where the middleware redirects to: a URL of the request's own origin,
    with path [/login] or [/], which the middleware lets through for the
    same session; following a redirect never leads to another one. *)
Theorem middleware_redirect_target :
  forall (request : NextRequest) (auth : option Session) (url : URL),
    middleware request auth = redirect url ->
    URL.origin url = URL.origin (nextUrl request) /\
    (URL.pathname url = "/login"%string \/ URL.pathname url = "/"%string) /\
    middleware {| nextUrl := url |} auth = next.
Proof.
  intros request auth url Hred.
  destruct (middleware_outcomes request auth) as [H|[H|H]];
    rewrite H in Hred; [| |discriminate].
  - injection Hred as <-. cbn. split; [reflexivity|]. split; [left; reflexivity | reflexivity].
  - injection Hred as <-. cbn. split; [reflexivity|]. split; [right; reflexivity | reflexivity].
Qed.

Lemma middleware_redirect_target_witness :
  middleware {| nextUrl := {| URL.origin := "https://periwinkle.example";
                              URL.pathname := "/login";
                              URL.searchParams := [("callbackUrl", "/admin/users")]%string |} |}
             None = next.
Proof.
  exact (proj2 (proj2 (middleware_redirect_target
    {| nextUrl := {| URL.origin := "https://periwinkle.example";
                     URL.pathname := "/admin/users";
                     URL.searchParams := [] |} |} None _ eq_refl))).
Defined.

(** ** More on the emitter *)

Section more_emitter_facts.
Context {E : Type}.
Implicit Types (em : BidEmitter E) (ev : E) (l : Listener) (a : string).

Lemma subscribers_step_other a a' em (op : BusOp E) :
  targets a op -> a' <> a ->
  subscribers a' (bus_step em op) = subscribers a' em.
Proof.
  intros Hop Hne. destruct op as [b l|b l|b ev throws]; cbn in Hop; subst b; cbn [bus_step].
  - rewrite subscribers_subscribe, bool_decide_false by exact Hne. reflexivity.
  - rewrite subscribers_unsubscribe, bool_decide_false by exact Hne. reflexivity.
  - apply subscribers_emit.
Qed.

Lemma stays_unsubscribed a l (ops : list (BusOp E)) em :
  l ∉ subscribers a em ->
  Forall (not_subscribing a l) ops ->
  l ∉ subscribers a (bus_run ops em).
Proof.
  revert em. induction ops as [|op ops IH]; intros em Hout Hops; [exact Hout|].
  inversion Hops as [|? ? Hop Hrest]; subst.
  cbn [bus_run fold_left]. apply IH; [|exact Hrest].
  destruct op as [b l'|b l'|b ev throws]; cbn [bus_step].
  - rewrite subscribers_subscribe. case_bool_decide as Hb; [|exact Hout].
    subst b. rewrite set_add_elem. intros [->|Hin]; [|contradiction].
    apply Hop. split; reflexivity.
  - rewrite subscribers_unsubscribe. case_bool_decide as Hb; [|exact Hout].
    subst b. rewrite set_delete_elem. intros [_ Hin]. contradiction.
  - rewrite subscribers_emit. exact Hout.
Qed.

Lemma dom_step em (op : BusOp E) :
  dom (listeners em) ⊆ dom (listeners (bus_step em op)).
Proof.
  destruct op as [a l|a l|a ev throws]; cbn [bus_step].
  - unfold subscribe. cbn [fst listeners].
    case_bool_decide as Hsome.
    + destruct Hsome as [s Hs]. rewrite Hs. rewrite dom_insert_L. set_solver.
    + rewrite lookup_insert_eq, !dom_insert_L. set_solver.
  - unfold unsubscribe. destruct (listeners em !! a) as [s|] eqn:Hs; [|reflexivity].
    cbn [listeners]. rewrite dom_insert_L. set_solver.
  - rewrite (proj1 (emit_spec throws a ev em)). reflexivity.
Qed.
Lemma subscribe_handle a l em : snd (subscribe a l em) = unsubscribe a l.
Proof. reflexivity. Qed.
End more_emitter_facts.

(** X8. Once its handle has been called, a listener is not called by any
    later emit to that auction, whatever else happens to the emitter in
    between, until it is subscribed to that auction again. *)
Theorem unsubscribed_listener_is_not_called :
  forall (E : Type) (em : BidEmitter E) (a : string) (l : Listener)
         (ops : list (BusOp E)) (ev : E) (throws : Listener -> bool),
    Forall (not_subscribing a l) ops ->
    let em' := bus_run ops (unsubscribe a l em) in
    (l ∉ subscribers a em') /\
    times_called l (snd (forEach_call throws (subscribers a em') ev)) = 0%nat /\
    observed l (calls (snd (emit throws a ev em'))) = observed l (calls em').
Proof.
  intros E em a l ops ev throws Hops em'.
  assert (Hout : l ∉ subscribers a em').
  { apply stays_unsubscribed; [|exact Hops].
    rewrite subscribers_unsubscribe, bool_decide_true by reflexivity.
    rewrite set_delete_elem. intros [Hne _]. congruence. }
  split; [exact Hout|].
  assert (Hnone : filter (fun c => callee c = l)
                    (snd (forEach_call throws (subscribers a em') ev)) = [])
    by apply forEach_call_absent, Hout.
  split.
  - unfold times_called. rewrite Hnone. reflexivity.
  - rewrite (proj1 (proj2 (emit_spec throws a ev em'))), observed_app.
    unfold observed at 2. rewrite Hnone. apply app_nil_r.
Qed.

Lemma unsubscribed_listener_is_not_called_witness :
  times_called 1%nat
    (snd (forEach_call (fun _ => false)
       (subscribers "auction-1"
          (bus_run [Subscribe "auction-1" 4%nat;
                    Emit "auction-1" "x"%string (Nat.eqb 2)]
             (unsubscribe "auction-1" 1%nat
                (@mkBidEmitter string {[ "auction-1"%string := [1%nat; 2%nat] ]} []))))
       "y"%string)) = 0%nat.
Proof.
  apply (unsubscribed_listener_is_not_called string
           (@mkBidEmitter string {[ "auction-1"%string := [1%nat; 2%nat] ]} [])
           "auction-1" 1%nat
           [Subscribe "auction-1" 4%nat; Emit "auction-1" "x"%string (Nat.eqb 2)]
           "y"%string (fun _ => false)).
  repeat constructor. cbn. intros [_ Heq]. discriminate.
Defined.

(** X9. Subscribing a listener that is already subscribed changes nothing, and
    both handles are the same function: after two subscriptions one call of
    either handle removes the listener. *)
Theorem subscribe_twice_is_once :
  forall (E : Type) (em : BidEmitter E) (a : string) (l : Listener),
    let em1 := fst (subscribe a l em) in
    let handle1 := snd (subscribe a l em) in
    let em2 := fst (subscribe a l em1) in
    let handle2 := snd (subscribe a l em1) in
    em2 = em1 /\
    (forall em', handle1 em' = handle2 em') /\
    (l ∉ subscribers a (handle1 em2)) /\
    (l ∉ subscribers a (handle2 em2)).
Proof.
  intros E em a l em1 handle1 em2 handle2.
  assert (Hin : l ∈ subscribers a em1).
  { subst em1. rewrite subscribers_subscribe, bool_decide_true by reflexivity.
    apply set_add_elem. left. reflexivity. }
  assert (Hgone : forall em' : BidEmitter E, l ∉ subscribers a (unsubscribe a l em')).
  { intros em'. rewrite subscribers_unsubscribe, bool_decide_true by reflexivity.
    rewrite set_delete_elem. intros [Hne _]. congruence. }
  split; [|split; [reflexivity | split; apply Hgone]].
  subst em2. unfold subscribers in Hin. unfold subscribe. cbn [fst].
  destruct em1 as [m log]. cbn [listeners calls] in *.
  destruct (m !! a) as [s|] eqn:Hs; cbn in Hin; [|inversion Hin].
  rewrite bool_decide_true by eauto. rewrite Hs.
  unfold set_add. rewrite bool_decide_true by exact Hin.
  rewrite insert_id by exact Hs. reflexivity.
Qed.

(** X10. Subscribing a new listener and calling the handle gives every auction
    its subscribers back, in the same order; but the entry that a first
    subscription creates for an auction stays behind, empty. *)
Theorem subscribe_then_unsubscribe :
  forall (E : Type) (em : BidEmitter E) (a : string) (l : Listener),
    l ∉ subscribers a em ->
    let em' := snd (subscribe a l em) (fst (subscribe a l em)) in
    (forall a', subscribers a' em' = subscribers a' em) /\
    calls em' = calls em /\
    (listeners em !! a = None -> listeners em' !! a = Some [] /\ em' <> em) /\
    (is_Some (listeners em !! a) -> em' = em).
Proof.
  intros E em a l Hout em'.
  assert (Hem : em' = unsubscribe a l (fst (subscribe a l em))) by reflexivity.
  clearbody em'.
  assert (Hsubs : forall a', subscribers a' em' = subscribers a' em).
  { intros a'. subst em'.
    rewrite subscribers_unsubscribe. case_bool_decide as Ha; subst.
    - rewrite subscribers_subscribe, bool_decide_true by reflexivity.
      unfold set_add. rewrite bool_decide_false by exact Hout.
      unfold set_delete. rewrite filter_app, filter_cons_False, filter_nil, app_nil_r
        by (intros Hne; apply Hne; reflexivity).
      apply set_delete_absent, Hout.
    - rewrite subscribers_subscribe, bool_decide_false by exact Ha. reflexivity. }
  split; [exact Hsubs|].
  split; [subst em'; rewrite calls_unsubscribe; reflexivity|].
  split.
  - intros Hnone.
    assert (Hentry : listeners em' !! a = Some []).
    { subst em'. unfold subscribe, unsubscribe. cbn [fst snd listeners].
      rewrite bool_decide_false by (rewrite Hnone; intros [? ?]; discriminate).
      rewrite lookup_insert_eq. cbn [listeners]. rewrite !lookup_insert_eq.
      cbn [listeners]. rewrite lookup_insert_eq. f_equal.
      unfold set_add. rewrite bool_decide_false by apply not_elem_of_nil.
      unfold set_delete. cbn [app].
      rewrite filter_cons_False by (intros Hne; apply Hne; reflexivity). reflexivity. }
    split; [exact Hentry|]. intros Heq. rewrite Heq, Hnone in Hentry. discriminate.
  - intros [s Hs]. destruct em as [m log].
    specialize (Hsubs a). unfold subscribers in Hsubs, Hout.
    cbn [listeners] in *. rewrite Hs in Hsubs, Hout. cbn in Hsubs, Hout.
    subst em'. unfold subscribe, unsubscribe in *. cbn [fst snd listeners calls] in *.
    rewrite bool_decide_true in * by eauto. rewrite Hs in *.
    rewrite lookup_insert_eq in *. cbn [listeners calls] in *.
    rewrite lookup_insert_eq in Hsubs. cbn in Hsubs.
    rewrite insert_insert_eq, Hsubs, insert_id by exact Hs. reflexivity.
Qed.

Lemma subscribe_then_unsubscribe_witness :
  subscribers "auction-1"
    (snd (subscribe "auction-1" 7%nat (bidEmitter sample_world))
       (fst (subscribe "auction-1" 7%nat (bidEmitter sample_world)))) = [1%nat; 2%nat].
Proof.
  apply (proj1 (subscribe_then_unsubscribe SSE (bidEmitter sample_world)
                  "auction-1" 7%nat ltac:(apply (bool_decide_unpack _); vm_compute; exact I)) "auction-1"%string).
Defined.

(** X11. The emitter never forgets an auction id: whatever is done to it, the
    keys of its map only grow. *)
Theorem emitter_keys_only_grow :
  forall (E : Type) (ops : list (BusOp E)) (em : BidEmitter E),
    dom (listeners em) ⊆ dom (listeners (bus_run ops em)) /\
    (forall a, is_Some (listeners em !! a) -> is_Some (listeners (bus_run ops em) !! a)).
Proof.
  intros E ops.
  assert (Hdom : forall em : BidEmitter E,
            dom (listeners em) ⊆ dom (listeners (bus_run ops em))).
  { induction ops as [|op ops IH]; intros em; [reflexivity|].
    cbn [bus_run fold_left]. etrans; [apply dom_step|]. apply IH. }
  intros em. split; [apply Hdom|].
  intros a Ha. apply elem_of_dom. apply Hdom. apply elem_of_dom, Ha.
Qed.

(** X12. Auctions do not interfere: operations on one auction leave the
    subscribers of every other auction as they were. *)
Theorem auctions_do_not_interfere :
  forall (E : Type) (a : string) (ops : list (BusOp E)) (em : BidEmitter E),
    Forall (targets a) ops ->
    forall a', a' <> a -> subscribers a' (bus_run ops em) = subscribers a' em.
Proof.
  intros E a ops. induction ops as [|op ops IH]; intros em Hops a' Hne; [reflexivity|].
  inversion Hops as [|? ? Hop Hrest]; subst.
  cbn [bus_run fold_left]. fold (bus_run ops (bus_step em op)).
  rewrite (IH (bus_step em op) Hrest a' Hne).
  apply (subscribers_step_other a); assumption.
Qed.

Lemma auctions_do_not_interfere_witness :
  subscribers "auction-2"
    (bus_run [Subscribe "auction-1" 9%nat;
              Emit "auction-1" ("ping"%string, PingData) (Nat.eqb 2);
              Unsubscribe "auction-1" 1%nat]
       (bidEmitter sample_world)) = [3%nat].
Proof.
  apply (auctions_do_not_interfere SSE "auction-1"
           [Subscribe "auction-1" 9%nat;
            Emit "auction-1" ("ping"%string, PingData) (Nat.eqb 2);
            Unsubscribe "auction-1" 1%nat]
           (bidEmitter sample_world)).
  - repeat constructor.
  - discriminate.
Defined.

(** ** The client hook *)

Lemma hook_run_bids (stream : list SSE) (st : HookState) :
  hook_bids (hook_run stream st) = rev (stream_bids stream) ++ hook_bids st /\
  hook_currentPrice (hook_run stream st) =
    match rev (stream_bids stream) with
    | d :: _ => Some (BidEvent.auction_currentPrice d)
    | [] => hook_currentPrice st
    end.
Proof.
  revert st. induction stream as [|[event data] stream IH]; intros st; [split; reflexivity|].
  cbn [hook_run fold_left]. fold (hook_run stream (hook_receive st (event, data))).
  destruct (IH (hook_receive st (event, data))) as (Hb & Hp). rewrite Hb, Hp.
  cbn [hook_receive stream_bids].
  destruct (String.eqb event "bid") eqn:Hbid.
  - destruct data as [d| |]; cbn [hook_bids hook_currentPrice]; try (split; reflexivity).
    cbn [rev]. rewrite <- app_assoc. split; [reflexivity|].
    destruct (rev (stream_bids stream)); reflexivity.
  - assert (Hsame : stream_bids ((event, data) :: stream) = stream_bids stream).
    { cbn [stream_bids]. destruct data; [rewrite Hbid|..]; reflexivity. }
    destruct data as [d| |]; destruct (String.eqb event "status");
      cbn [hook_bids hook_currentPrice]; split; reflexivity.
Qed.

Lemma stream_bids_app (s1 s2 : list SSE) :
  stream_bids (s1 ++ s2) = stream_bids s1 ++ stream_bids s2.
Proof.
  induction s1 as [|[event data] s1 IH]; [reflexivity|].
  cbn [app stream_bids]. destruct data; [destruct (String.eqb event "bid")|..];
    rewrite IH; reflexivity.
Qed.

(** X13. After any stream of events the hook's bid list holds the data of the
    [bid] events received, newest first, and, from the first bid on, the
    price it shows is the [auction.currentPrice] of the newest one; [status]
    and [ping] events, and events under other names, change neither. Nothing
    resets the list: the events of a second stream (another [auctionId]) are
    put in front of those of the first. *)
Theorem hook_tracks_bids :
  forall (stream : list SSE),
    let st := hook_run stream hook_initial in
    hook_bids st = rev (stream_bids stream) /\
    length (hook_bids st) = length (stream_bids stream) /\
    hook_currentPrice st = BidEvent.auction_currentPrice <$> head (hook_bids st) /\
    (stream_bids stream = [] -> hook_currentPrice st = None) /\
    (forall second,
       hook_bids (hook_run second st) =
         rev (stream_bids second) ++ rev (stream_bids stream)).
Proof.
  intros stream st. subst st.
  destruct (hook_run_bids stream hook_initial) as (Hb & Hp).
  cbn [hook_bids hook_currentPrice hook_initial] in Hb, Hp. rewrite app_nil_r in Hb.
  split; [exact Hb|]. split; [rewrite Hb; apply length_rev|].
  split; [|split].
  - rewrite Hp, Hb. destruct (rev (stream_bids stream)); reflexivity.
  - intros Hnone. rewrite Hp, Hnone. reflexivity.
  - intros second.
    rewrite (proj1 (hook_run_bids second (hook_run stream hook_initial))), Hb. reflexivity.
Qed.

Lemma stream_bids_sublist (s1 s2 : list SSE) :
  s1 `sublist_of` s2 -> stream_bids s1 `sublist_of` stream_bids s2.
Proof.
  induction 1 as [|[event data] s1 s2 Hsub IH|[event data] s1 s2 Hsub IH];
    [constructor| |]; cbn [stream_bids].
  - destruct data; [destruct (String.eqb event "bid"); [apply sublist_skip|]|..]; exact IH.
  - destruct data; [destruct (String.eqb event "bid"); [apply sublist_cons|]|..]; exact IH.
Qed.

(** X14. Emitter and hook composed (the wire in between taken as lossless): a
    hook fed with what a listener is called with, the listener being
    subscribed to an auction of a reachable emitter and staying so, holds
    bids published to that auction since, newest first and in publish order:
    all of them when no listener throws in these publishes, and otherwise
    those that reached the listener. *)
Theorem hook_sees_published_bids :
  forall (history ops : list (BusOp SSE)) (a : string) (l : Listener),
    let em := bus_run history new_BidEmitter in
    l ∈ subscribers a em ->
    observed l (calls em) = [] ->
    Forall (keeps_subscribed a l) ops ->
    let st := hook_run (observed l (calls (bus_run ops em))) hook_initial in
    rev (hook_bids st) `sublist_of` stream_bids (published a ops) /\
    (Forall quiet ops ->
       hook_bids st = rev (stream_bids (published a ops)) /\
       hook_currentPrice st =
         BidEvent.auction_currentPrice <$> head (rev (stream_bids (published a ops)))).
Proof.
  intros history ops a l em Hl Hfresh Hops st. subst st.
  assert (Hwf : emitter_wf em) by apply emitter_wf_run, emitter_wf_new.
  destruct (observed_run a l ops em Hwf Hl Hops) as (_ & received & Hobs & Hsub & Hall).
  rewrite Hobs, Hfresh. cbn [app].
  destruct (hook_run_bids received hook_initial) as (Hb & Hp).
  cbn [hook_bids hook_currentPrice hook_initial] in Hb, Hp. rewrite app_nil_r in Hb.
  split.
  - rewrite Hb, rev_involutive. apply stream_bids_sublist, Hsub.
  - intros Hq. rewrite Hb, Hp, (Hall Hq). split; [reflexivity|].
    destruct (rev (stream_bids (published a ops))); reflexivity.
Qed.

Lemma hook_sees_published_bids_witness :
  hook_currentPrice
    (hook_run
       (observed 1%nat
          (calls (bus_run [Emit "auction-1" ("bid"%string, BidData sample_bid_event)
                             (fun _ => false);
                           Unsubscribe "auction-1" 2%nat;
                           Emit "auction-1" ("ping"%string, PingData) (fun _ => false)]
                    (bus_run [Subscribe "auction-1" 1%nat; Subscribe "auction-1" 2%nat]
                       new_BidEmitter))))
       hook_initial) = Some 105.
Proof.
  apply (proj2 (hook_sees_published_bids
           [Subscribe "auction-1" 1%nat; Subscribe "auction-1" 2%nat]
           [Emit "auction-1" ("bid"%string, BidData sample_bid_event) (fun _ => false);
            Unsubscribe "auction-1" 2%nat;
            Emit "auction-1" ("ping"%string, PingData) (fun _ => false)]
           "auction-1" 1%nat
           ltac:(apply (bool_decide_unpack _); vm_compute; exact I) eq_refl
           ltac:(repeat constructor; cbn; intros [_ Heq]; discriminate))).
  repeat constructor.
Defined.

(** When the call of a listener subscribed earlier throws, the hook behind a
    later listener misses the bid. *)
Example hook_misses_a_bid :
  hook_bids
    (hook_run
       (observed 2%nat
          (calls (bus_run [Emit "auction-1" ("bid"%string, BidData sample_bid_event)
                             (Nat.eqb 1)]
                    (bus_run [Subscribe "auction-1" 1%nat; Subscribe "auction-1" 2%nat]
                       new_BidEmitter))))
       hook_initial) = [].
Proof. reflexivity. Qed.

(** ** Strings *)

Lemma append_cons (c : Ascii.ascii) (s t : string) :
  (String c s ++ t)%string = String c (s ++ t).
Proof. reflexivity. Qed.

Lemma length_append (s t : string) :
  String.length (s ++ t) = (String.length s + String.length t)%nat.
Proof.
  induction s as [|c s IH]; [reflexivity|].
  rewrite append_cons. cbn [String.length]. rewrite IH. reflexivity.
Qed.

Lemma length_substring_0 (n : nat) (s : string) :
  String.length (substring 0 n s) = Nat.min n (String.length s).
Proof.
  revert n. induction s as [|c s IH]; intros [|n]; cbn; try reflexivity.
  f_equal. apply IH.
Qed.

Lemma substring_0_prefix (n : nat) (s : string) :
  exists rest, s = (substring 0 n s ++ rest)%string.
Proof.
  revert n. induction s as [|c s IH]; intros [|n]; cbn.
  - exists ""%string. reflexivity.
  - exists ""%string. reflexivity.
  - exists (String c s). reflexivity.
  - destruct (IH n) as (rest & Hrest). exists rest.
    rewrite append_cons, <- Hrest. reflexivity.
Qed.

(** ** [truncate] *)

Lemma truncate_cut (text : string) (maxLength : Z) :
  3 <= maxLength < Z.of_nat (String.length text) ->
  truncate text maxLength =
    (substring 0 (Z.to_nat (maxLength - 3)) text ++ "...")%string.
Proof.
  intros [Hm Hlen]. unfold truncate, slice.
  destruct (Z.leb_spec (Z.of_nat (String.length text)) maxLength); [lia|].
  cbn [Z.ltb Z.compare]. destruct (Z.ltb_spec (maxLength - 3) 0); [lia|].
  rewrite Z.min_l by lia. cbn [Z.to_nat].
  rewrite (Z.min_l (maxLength - 3)) by lia.
  rewrite Z.sub_0_r, Z.max_l by lia. reflexivity.
Qed.

Lemma truncate_length (text : string) (maxLength : Z) :
  3 <= maxLength ->
  Z.of_nat (String.length (truncate text maxLength)) =
    Z.min (Z.of_nat (String.length text)) maxLength.
Proof.
  intros Hm.
  destruct (Z.le_gt_cases (Z.of_nat (String.length text)) maxLength) as [Hfit|Hlong].
  - unfold truncate.
    destruct (Z.leb_spec (Z.of_nat (String.length text)) maxLength); lia.
  - rewrite truncate_cut by lia.
    rewrite length_append, length_substring_0. cbn [String.length]. lia.
Qed.

(** X15. With room for the ellipsis ([maxLength >= 3]) the result never exceeds
    [maxLength]: a text that fits is returned as it is, and a longer one is
    cut to exactly [maxLength] characters, a prefix of the text followed by
    three dots. *)
Theorem truncate_fits :
  forall (text : string) (maxLength : Z),
    3 <= maxLength ->
    let len := Z.of_nat (String.length text) in
    Z.of_nat (String.length (truncate text maxLength)) = Z.min len maxLength /\
    (len <= maxLength -> truncate text maxLength = text) /\
    (maxLength < len ->
       exists kept rest,
         text = (kept ++ rest)%string /\
         Z.of_nat (String.length kept) = maxLength - 3 /\
         truncate text maxLength = (kept ++ "...")%string).
Proof.
  intros text maxLength Hm len.
  destruct (Z.le_gt_cases len maxLength) as [Hfit|Hlong].
  - assert (Hid : truncate text maxLength = text).
    { unfold truncate. fold len. destruct (Z.leb_spec len maxLength); [reflexivity|lia]. }
    rewrite Hid. fold len. split; [lia|]. split; [reflexivity | lia].
  - rewrite truncate_cut by (fold len; lia).
    assert (Hkept : String.length (substring 0 (Z.to_nat (maxLength - 3)) text)
                    = Z.to_nat (maxLength - 3)).
    { rewrite length_substring_0. subst len. lia. }
    split; [|split; [lia|]].
    + rewrite length_append, Hkept. cbn [String.length]. lia.
    + intros _. destruct (substring_0_prefix (Z.to_nat (maxLength - 3)) text) as (rest & Hrest).
      exists (substring 0 (Z.to_nat (maxLength - 3)) text), rest.
      split; [exact Hrest|]. split; [rewrite Hkept; lia | reflexivity].
Qed.

Lemma truncate_fits_witness :
  3 <= 6 /\ truncate "abcdefghij" 6 = "abc..."%string /\
  Z.of_nat (String.length (truncate "abcdefghij" 6)) = Z.min 10 6.
Proof.
  split; [lia|]. split; [reflexivity|].
  exact (proj1 (truncate_fits "abcdefghij" 6 ltac:(lia))).
Defined.

(** X16. Without room for the ellipsis ([maxLength < 3]) a text longer than
    [maxLength] comes back longer than [maxLength]: the negative end index
    counts from the end of the text, so all but the last [3 - maxLength]
    characters are kept and the dots are added. *)
Theorem truncate_short_limit :
  forall (text : string) (maxLength : Z),
    maxLength < 3 ->
    maxLength < Z.of_nat (String.length text) ->
    let len := Z.of_nat (String.length text) in
    Z.of_nat (String.length (truncate text maxLength)) = Z.max (len + maxLength - 3) 0 + 3 /\
    Z.of_nat (String.length (truncate text maxLength)) > maxLength /\
    (0 < maxLength -> 3 <= len ->
       Z.of_nat (String.length (truncate text maxLength)) > len).
Proof.
  intros text maxLength Hm Hlen len.
  assert (Hl : Z.of_nat (String.length (truncate text maxLength))
               = Z.max (len + maxLength - 3) 0 + 3).
  { unfold truncate, slice. fold len.
    destruct (Z.leb_spec len maxLength); [lia|].
    cbn [Z.ltb Z.compare]. destruct (Z.ltb_spec (maxLength - 3) 0); [|lia].
    rewrite Z.min_l by lia. cbn [Z.to_nat].
    rewrite length_append, length_substring_0. cbn [String.length]. lia. }
  rewrite Hl. split; [reflexivity|]. split; lia.
Qed.

Lemma truncate_short_limit_witness :
  2 < 3 /\ 2 < Z.of_nat (String.length "abcdef") /\
  truncate "abcdef" 2 = "abcde..."%string /\
  Z.of_nat (String.length (truncate "abcdef" 2)) > 2.
Proof.
  split; [lia|]. split; [cbn; lia|]. split; [reflexivity|].
  exact (proj1 (proj2 (truncate_short_limit "abcdef" 2 ltac:(lia) ltac:(cbn; lia)))).
Defined.

(** X17. For [maxLength >= 3] truncating twice is truncating once. *)
Theorem truncate_idempotent :
  forall (text : string) (maxLength : Z),
    3 <= maxLength ->
    truncate (truncate text maxLength) maxLength = truncate text maxLength.
Proof.
  intros text maxLength Hm.
  pose proof (truncate_length text maxLength Hm) as Hlen.
  unfold truncate at 1.
  destruct (Z.leb_spec (Z.of_nat (String.length (truncate text maxLength))) maxLength);
    [reflexivity | lia].
Qed.

Lemma truncate_idempotent_witness :
  truncate (truncate "abcdefghij" 6) 6 = "abc..."%string.
Proof.
  rewrite (truncate_idempotent "abcdefghij" 6 ltac:(lia)). reflexivity.
Defined.

(** ** [formatCountdown] *)

Lemma last_char_append (s t : string) :
  last_char (s ++ t) =
    match last_char t with
    | Some d => Some d
    | None => last_char s
    end.
Proof.
  induction s as [|c s IH].
  - change (""%string ++ t)%string with t. destruct (last_char t); reflexivity.
  - rewrite append_cons. cbn [last_char]. rewrite IH.
    destruct (last_char t); reflexivity.
Qed.

Lemma countdown_fields (diffMs : Z) :
  0 < diffMs ->
  0 <= countdown_days diffMs /\
  0 <= countdown_hours diffMs < 24 /\
  0 <= countdown_minutes diffMs < 60 /\
  0 <= countdown_seconds diffMs < 60 /\
  countdown_days diffMs * 86400000 + countdown_hours diffMs * 3600000 +
    countdown_minutes diffMs * 60000 + countdown_seconds diffMs * 1000
    = diffMs - diffMs mod 1000.
Proof.
  intros Hpos.
  unfold countdown_days, countdown_hours, countdown_minutes, countdown_seconds, floor_div.
  rewrite !Z.rem_mod_nonneg by lia.
  change (1000 * 60 * 60 * 24) with 86400000.
  change (1000 * 60 * 60) with 3600000.
  change (1000 * 60) with 60000.
  Z.div_mod_to_equations. lia.
Qed.

Lemma formatCountdown_running (endTime now : Z) :
  now < endTime ->
  last_char (formatCountdown endTime now) = Some "m"%char \/
  last_char (formatCountdown endTime now) = Some "s"%char.
Proof.
  intros Hlt. unfold formatCountdown.
  destruct (Z.leb_spec (endTime - now) 0); [lia|].
  destruct (_ >? 0); [|destruct (_ >? 0)];
    rewrite !last_char_append; cbn [last_char]; auto.
Qed.

(** X18. The countdown reads "Ended" exactly when the end time is not after
    the clock; any running countdown ends in a minutes or a seconds field. *)
Theorem formatCountdown_Ended_iff :
  forall (endTime now : Z),
    (formatCountdown endTime now = "Ended"%string <-> endTime <= now) /\
    (now < endTime ->
       last_char (formatCountdown endTime now) = Some "m"%char \/
       last_char (formatCountdown endTime now) = Some "s"%char).
Proof.
  intros endTime now. split; [|apply formatCountdown_running].
  split.
  - intros Hended. destruct (Z.le_gt_cases endTime now) as [Hle|Hgt]; [exact Hle|].
    destruct (formatCountdown_running endTime now Hgt) as [H|H];
      rewrite Hended in H; discriminate.
  - intros Hle. unfold formatCountdown.
    destruct (Z.leb_spec (endTime - now) 0); [reflexivity | lia].
Qed.

(** X19. While the countdown runs, its fields are a mixed-radix reading of the
    time left: hours below 24, minutes and seconds below 60, and together
    with the days they add up to the time left rounded down to the second.
    Days are shown from one day on (without seconds), hours from one hour
    on. *)
Theorem formatCountdown_fields :
  forall (endTime now : Z),
    now < endTime ->
    let diffMs := endTime - now in
    let d := countdown_days diffMs in
    let h := countdown_hours diffMs in
    let m := countdown_minutes diffMs in
    let s := countdown_seconds diffMs in
    0 <= d /\ 0 <= h < 24 /\ 0 <= m < 60 /\ 0 <= s < 60 /\
    d * 86400000 + h * 3600000 + m * 60000 + s * 1000 = diffMs - diffMs mod 1000 /\
    (86400000 <= diffMs ->
       formatCountdown endTime now =
         (Number_toString d ++ "d " ++ Number_toString h ++ "h "
          ++ Number_toString m ++ "m")%string) /\
    (3600000 <= diffMs < 86400000 ->
       formatCountdown endTime now =
         (Number_toString h ++ "h " ++ Number_toString m ++ "m "
          ++ Number_toString s ++ "s")%string) /\
    (diffMs < 3600000 ->
       formatCountdown endTime now =
         (Number_toString m ++ "m " ++ Number_toString s ++ "s")%string).
Proof.
  intros endTime now Hlt diffMs d h m s.
  assert (Hpos : 0 < diffMs) by (subst diffMs; lia).
  destruct (countdown_fields diffMs Hpos) as (Hd & Hh & Hm & Hs & Hsum).
  fold d h m s in Hd, Hh, Hm, Hs, Hsum.
  assert (Hmod : 0 <= diffMs mod 1000 < 1000) by (apply Z.mod_pos_bound; lia).
  split; [exact Hd|]. split; [exact Hh|]. split; [exact Hm|]. split; [exact Hs|].
  split; [exact Hsum|].
  assert (Hfmt : formatCountdown endTime now =
    if d >? 0 then
      (Number_toString d ++ "d " ++ Number_toString h ++ "h "
       ++ Number_toString m ++ "m")%string
    else if h >? 0 then
      (Number_toString h ++ "h " ++ Number_toString m ++ "m "
       ++ Number_toString s ++ "s")%string
    else (Number_toString m ++ "m " ++ Number_toString s ++ "s")%string).
  { unfold formatCountdown. fold diffMs.
    destruct (Z.leb_spec diffMs 0); [lia | reflexivity]. }
  rewrite Hfmt. clear Hfmt.
  split; [|split].
  - intros Hday. destruct (Z.gtb_spec d 0); [reflexivity | lia].
  - intros [Hhour Hday]. destruct (Z.gtb_spec d 0); [lia|].
    destruct (Z.gtb_spec h 0); [reflexivity | lia].
  - intros Hhour. destruct (Z.gtb_spec d 0); [lia|].
    destruct (Z.gtb_spec h 0); [lia | reflexivity].
Qed.

Lemma formatCountdown_fields_witness :
  0 < 192600999 /\
  formatCountdown 192600999 0 = "2d 5h 30m"%string /\
  0 <= countdown_hours (192600999 - 0) < 24.
Proof.
  split; [lia|]. split; [reflexivity|].
  exact (proj1 (proj2 (formatCountdown_fields 192600999 0 ltac:(lia)))).
Defined.

(** ** [formatRelativeTime] *)

(** The four differences, each a floor of the difference in milliseconds. *)
Lemma relativeTime_floors (diffMs : Z) :
  floor_div (floor_div diffMs 1000) 60 = diffMs / 60000 /\
  floor_div (floor_div (floor_div diffMs 1000) 60) 60 = diffMs / 3600000 /\
  floor_div (floor_div (floor_div (floor_div diffMs 1000) 60) 60) 24 = diffMs / 86400000.
Proof.
  unfold floor_div. rewrite !Z.div_div by lia. repeat split; reflexivity.
Qed.

Lemma relativeTime_cases (date now : Z) :
  relativeTime date now =
    let diffMs := date - now in
    if Z.abs (diffMs / 86400000) >=? 1 then (diffMs / 86400000, days)
    else if Z.abs (diffMs / 3600000) >=? 1 then (diffMs / 3600000, hours)
    else if Z.abs (diffMs / 60000) >=? 1 then (diffMs / 60000, minutes)
    else (diffMs / 1000, seconds).
Proof.
  unfold relativeTime. cbn zeta.
  destruct (relativeTime_floors (date - now)) as (-> & -> & ->). reflexivity.
Qed.

(** X20. A date in the past, however recent, is reported in days: every floor
    of a negative difference is at most -1, so the first test already
    succeeds; hours, minutes and seconds are only ever used for the
    future. *)
Theorem formatRelativeTime_past_is_days :
  forall (rtf_format : Z -> RelativeTimeUnit -> string) (date now : Z),
    date < now ->
    relativeTime date now = ((date - now) / 86400000, days) /\
    (date - now) / 86400000 <= -1 /\
    formatRelativeTime rtf_format date now = rtf_format ((date - now) / 86400000) days /\
    (now - date <= 86400000 ->
       formatRelativeTime rtf_format date now = rtf_format (-1) days).
Proof.
  intros rtf_format date now Hpast.
  assert (Hd : (date - now) / 86400000 <= -1) by (Z.div_mod_to_equations; lia).
  assert (Hr : relativeTime date now = ((date - now) / 86400000, days)).
  { rewrite relativeTime_cases. cbn zeta.
    destruct (Z.geb_spec (Z.abs ((date - now) / 86400000)) 1); [reflexivity | lia]. }
  split; [exact Hr|]. split; [exact Hd|].
  unfold formatRelativeTime. rewrite Hr. split; [reflexivity|].
  intros Hday. f_equal. Z.div_mod_to_equations; lia.
Qed.

Lemma formatRelativeTime_past_is_days_witness :
  0 < 1 /\
  relativeTime 0 1 = (-1, days) /\
  relativeTime 0 7200000 = (-1, days).
Proof.
  split; [lia|]. split; [reflexivity|].
  exact (proj1 (formatRelativeTime_past_is_days (fun _ _ => ""%string) 0 7200000 ltac:(lia))).
Defined.

(** X21. Whatever the sign, the value handed to the formatter is the difference
    rounded down to a whole number of the chosen unit. *)
Theorem formatRelativeTime_rounds_down :
  forall (date now : Z),
    let value := fst (relativeTime date now) in
    let unit := snd (relativeTime date now) in
    value * unit_ms unit <= date - now < (value + 1) * unit_ms unit.
Proof.
  intros date now. rewrite relativeTime_cases. cbn zeta.
  destruct (_ >=? 1); [|destruct (_ >=? 1); [|destruct (_ >=? 1)]];
    cbn [fst snd unit_ms];
    change (1000 * 60 * 60 * 24) with 86400000;
    change (1000 * 60 * 60) with 3600000;
    change (1000 * 60) with 60000;
    Z.div_mod_to_equations; lia.
Qed.

(** X22. For a date that is not in the past the coarsest unit with a nonzero
    count is chosen: days from 24 hours on, hours from one hour on with a
    count below 24, minutes from one minute on with a count below 60, and
    seconds (0 to 59) below one minute. *)
Theorem formatRelativeTime_future_unit :
  forall (date now : Z),
    now <= date ->
    let diffMs := date - now in
    (86400000 <= diffMs ->
       relativeTime date now = (diffMs / 86400000, days) /\ 1 <= diffMs / 86400000) /\
    (3600000 <= diffMs < 86400000 ->
       relativeTime date now = (diffMs / 3600000, hours) /\ 1 <= diffMs / 3600000 < 24) /\
    (60000 <= diffMs < 3600000 ->
       relativeTime date now = (diffMs / 60000, minutes) /\ 1 <= diffMs / 60000 < 60) /\
    (diffMs < 60000 ->
       relativeTime date now = (diffMs / 1000, seconds) /\ 0 <= diffMs / 1000 < 60).
Proof.
  intros date now Hfut diffMs. rewrite relativeTime_cases. cbn zeta. fold diffMs.
  assert (H0 : 0 <= diffMs) by (subst diffMs; lia).
  assert (Hd : 0 <= diffMs / 86400000) by (Z.div_mod_to_equations; lia).
  assert (Hh : 0 <= diffMs / 3600000) by (Z.div_mod_to_equations; lia).
  assert (Hm : 0 <= diffMs / 60000) by (Z.div_mod_to_equations; lia).
  repeat split.
  - destruct (Z.geb_spec (Z.abs (diffMs / 86400000)) 1); [reflexivity|].
    exfalso. Z.div_mod_to_equations; lia.
  - Z.div_mod_to_equations; lia.
  - destruct H as [Hlo Hhi].
    destruct (Z.geb_spec (Z.abs (diffMs / 86400000)) 1);
      [exfalso; Z.div_mod_to_equations; lia|].
    destruct (Z.geb_spec (Z.abs (diffMs / 3600000)) 1); [reflexivity|].
    exfalso. Z.div_mod_to_equations; lia.
  - Z.div_mod_to_equations; lia.
  - Z.div_mod_to_equations; lia.
  - destruct H as [Hlo Hhi].
    destruct (Z.geb_spec (Z.abs (diffMs / 86400000)) 1);
      [exfalso; Z.div_mod_to_equations; lia|].
    destruct (Z.geb_spec (Z.abs (diffMs / 3600000)) 1);
      [exfalso; Z.div_mod_to_equations; lia|].
    destruct (Z.geb_spec (Z.abs (diffMs / 60000)) 1); [reflexivity|].
    exfalso. Z.div_mod_to_equations; lia.
  - Z.div_mod_to_equations; lia.
  - Z.div_mod_to_equations; lia.
  - destruct (Z.geb_spec (Z.abs (diffMs / 86400000)) 1);
      [exfalso; Z.div_mod_to_equations; lia|].
    destruct (Z.geb_spec (Z.abs (diffMs / 3600000)) 1);
      [exfalso; Z.div_mod_to_equations; lia|].
    destruct (Z.geb_spec (Z.abs (diffMs / 60000)) 1);
      [exfalso; Z.div_mod_to_equations; lia | reflexivity].
  - Z.div_mod_to_equations; lia.
  - Z.div_mod_to_equations; lia.
Qed.

Lemma formatRelativeTime_future_unit_witness :
  0 <= 7200000 /\ relativeTime 7200000 0 = (2, hours).
Proof.
  split; [lia|].
  exact (proj1 (proj1 (proj2 (formatRelativeTime_future_unit 7200000 0 ltac:(lia)))
                  ltac:(cbn; lia))).
Defined.

(** ** [maskName] *)

Lemma append_nil_r (s : string) : (s ++ "")%string = s.
Proof.
  induction s as [|c s IH]; [reflexivity|]. rewrite append_cons, IH. reflexivity.
Qed.

Lemma append_assoc (s t u : string) :
  (s ++ t ++ u)%string = ((s ++ t) ++ u)%string.
Proof.
  induction s as [|c s IH]; [reflexivity|]. rewrite !append_cons, IH. reflexivity.
Qed.

Section maskName_facts.
Context (ws : ascii -> bool) (toUpperCase : string -> string).

Lemma word_cons (w : string) :
  word ws w ->
  exists c rest, w = String c rest /\ ws c = false /\
                 all_chars (fun c => negb (ws c)) rest = true.
Proof.
  intros [Hne Hall]. destruct w as [|c rest]; [congruence|].
  cbn in Hall. apply andb_true_iff in Hall as [Hc Hrest].
  exists c, rest. split; [reflexivity|]. split; [|exact Hrest].
  apply negb_true_iff, Hc.
Qed.

Lemma trimStart_blank_app (l s : string) :
  blank ws l -> trimStart ws (l ++ s) = trimStart ws s.
Proof.
  unfold blank. induction l as [|c l IH]; intros Hl; [reflexivity|].
  cbn in Hl. apply andb_true_iff in Hl as [Hc Hl].
  rewrite append_cons. cbn [trimStart]. rewrite Hc. apply IH, Hl.
Qed.

Lemma trimEnd_blank (t : string) : blank ws t -> trimEnd ws t = EmptyString.
Proof.
  unfold blank. induction t as [|c t IH]; intros Ht; [reflexivity|].
  cbn in Ht. apply andb_true_iff in Ht as [Hc Ht].
  cbn [trimEnd]. rewrite (IH Ht), Hc. reflexivity.
Qed.

Lemma trimEnd_app_blank (s t : string) :
  blank ws t -> trimEnd ws (s ++ t) = trimEnd ws s.
Proof.
  intros Ht. induction s as [|c s IH].
  - change (trimEnd ws t = EmptyString). apply trimEnd_blank, Ht.
  - rewrite append_cons. cbn [trimEnd]. rewrite IH. reflexivity.
Qed.

Lemma trimEnd_no_space (w : string) :
  all_chars (fun c => negb (ws c)) w = true -> trimEnd ws w = w.
Proof.
  induction w as [|c w IH]; intros Hw; [reflexivity|].
  cbn in Hw. apply andb_true_iff in Hw as [Hc Hw]. apply negb_true_iff in Hc.
  cbn [trimEnd]. rewrite (IH Hw). destruct w; [rewrite Hc|]; reflexivity.
Qed.

Lemma trimEnd_app_word (s w : string) :
  word ws w -> trimEnd ws (s ++ w) = (s ++ w)%string.
Proof.
  intros Hw. induction s as [|c s IH].
  - apply trimEnd_no_space, Hw.
  - rewrite append_cons. cbn [trimEnd]. rewrite IH.
    destruct (s ++ w)%string eqn:Hsw; [|reflexivity].
    exfalso. destruct (word_cons w Hw) as (d & rest & -> & _).
    destruct s; discriminate.
Qed.

(** A joined name starts with a character that is no white space and ends
    with its last word. *)
Lemma join_shape (w : string) (more : list (string * string)) :
  word ws w -> Forall (separated_word ws) more ->
  (exists c rest, join w more = String c rest /\ ws c = false) /\
  (exists front, join w more = (front ++ last_word w more)%string) /\
  word ws (last_word w more).
Proof.
  revert w. induction more as [|[sep w'] more IH]; intros w Hw Hmore.
  - cbn. split; [|split; [exists EmptyString; reflexivity | exact Hw]].
    destruct (word_cons w Hw) as (c & rest & -> & Hc & _). eauto.
  - inversion Hmore as [|? ? (Hsep & Hblank & Hw') Hrest]; subst. cbn in Hsep, Hblank, Hw'.
    destruct (IH w' Hw' Hrest) as (_ & (front & Hfront) & Hlast).
    cbn [last_word join]. split; [|split; [|exact Hlast]].
    + destruct (word_cons w Hw) as (c & rest & -> & Hc & _).
      rewrite append_cons. eauto.
    + exists (w ++ sep ++ front)%string. rewrite Hfront, !append_assoc. reflexivity.
Qed.

(** Trimming a padded name leaves the joined words. *)
Lemma trim_join (lead trail w : string) (more : list (string * string)) :
  blank ws lead -> blank ws trail ->
  word ws w -> Forall (separated_word ws) more ->
  trim ws (lead ++ join w more ++ trail) = join w more.
Proof.
  intros Hlead Htrail Hw Hmore. unfold trim.
  destruct (join_shape w more Hw Hmore) as ((c & rest & Hstart & Hc) & (front & Hend) & Hlast).
  rewrite trimStart_blank_app by exact Hlead.
  rewrite Hstart, append_cons. cbn [trimStart]. rewrite Hc.
  rewrite <- append_cons, <- Hstart, trimEnd_app_blank by exact Htrail.
  rewrite Hend. apply trimEnd_app_word, Hlast.
Qed.

(** Splitting: a word, then a separator, then the rest. *)
Lemma split_go_nonempty (in_run : bool) (s : string) : split_go ws in_run s <> [].
Proof.
  revert in_run. induction s as [|c s IH]; intros in_run; cbn; [discriminate|].
  destruct (ws c).
  - destruct in_run; [apply IH | discriminate].
  - destruct (split_go ws false s); discriminate.
Qed.

Lemma split_go_no_space (w s : string) :
  all_chars (fun c => negb (ws c)) w = true ->
  split_go ws false (w ++ s) =
    (w ++ hd EmptyString (split_go ws false s))%string :: tl (split_go ws false s).
Proof.
  induction w as [|c w IH]; intros Hw.
  - change (EmptyString ++ s)%string with s.
    pose proof (split_go_nonempty false s).
    destruct (split_go ws false s); [congruence | reflexivity].
  - cbn in Hw. apply andb_true_iff in Hw as [Hc Hw]. apply negb_true_iff in Hc.
    rewrite append_cons. cbn [split_go]. rewrite Hc, (IH Hw). reflexivity.
Qed.

Lemma split_go_run (sep : string) (c : ascii) (rest : string) :
  blank ws sep -> ws c = false ->
  split_go ws true (sep ++ String c rest) = split_go ws false (String c rest).
Proof.
  intros Hsep Hc. induction sep as [|d sep IH].
  - change (split_go ws true (String c rest) = split_go ws false (String c rest)).
    cbn [split_go]. rewrite Hc. reflexivity.
  - unfold blank in Hsep. cbn in Hsep. apply andb_true_iff in Hsep as [Hd Hsep].
    rewrite append_cons. cbn [split_go]. rewrite Hd. apply IH, Hsep.
Qed.

Lemma split_go_separator (sep : string) (c : ascii) (rest : string) :
  sep <> EmptyString -> blank ws sep -> ws c = false ->
  split_go ws false (sep ++ String c rest) =
    EmptyString :: split_go ws false (String c rest).
Proof.
  intros Hne Hsep Hc. destruct sep as [|d sep]; [congruence|].
  unfold blank in Hsep. cbn in Hsep. apply andb_true_iff in Hsep as [Hd Hsep].
  rewrite append_cons. cbn [split_go]. rewrite Hd.
  f_equal. apply split_go_run; assumption.
Qed.

Lemma split_join (w : string) (more : list (string * string)) :
  word ws w -> Forall (separated_word ws) more ->
  split_whitespace ws (join w more) = w :: map snd more.
Proof.
  unfold split_whitespace. revert w.
  induction more as [|[sep w'] more IH]; intros w Hw Hmore.
  - cbn [join map]. rewrite <- (append_nil_r w) at 1.
    rewrite split_go_no_space by apply Hw. cbn. rewrite append_nil_r. reflexivity.
  - inversion Hmore as [|? ? (Hsep & Hblank & Hw') Hrest]; subst. cbn in Hsep, Hblank, Hw'.
    cbn [join map snd].
    destruct (join_shape w' more Hw' Hrest) as ((c & rest & Hstart & Hc) & _).
    rewrite split_go_no_space by apply Hw.
    rewrite Hstart, split_go_separator by assumption.
    cbn [hd tl]. rewrite append_nil_r, <- Hstart, IH by assumption. reflexivity.
Qed.

Lemma nth_last_word (w : string) (more : list (string * string)) :
  nth (length (w :: map snd more) - 1) (w :: map snd more) EmptyString = last_word w more.
Proof.
  revert w. induction more as [|[sep w'] more IH]; intros w; [reflexivity|].
  cbn [map snd length last_word]. rewrite <- IH. cbn [length].
  rewrite !Nat.sub_succ, !Nat.sub_0_r. reflexivity.
Qed.
Lemma name_parts (lead trail w : string) (more : list (string * string)) :
  blank ws lead -> blank ws trail ->
  word ws w -> Forall (separated_word ws) more ->
  split_whitespace ws (trim ws (lead ++ join w more ++ trail)) = w :: map snd more.
Proof.
  intros Hlead Htrail Hw Hmore. rewrite trim_join by assumption.
  apply split_join; assumption.
Qed.

Lemma trim_blank (name : string) : blank ws name -> trim ws name = EmptyString.
Proof.
  intros Hb. unfold trim.
  rewrite <- (append_nil_r name), trimStart_blank_app by exact Hb. reflexivity.
Qed.
End maskName_facts.

(** X23. A name of one word shows as the upper-cased first character and three
    stars; a name of several words shows as the first word, a space, the
    upper-cased first character of the last word and a dot. Padding, the
    white space between the words and the words in the middle do not
    matter. *)
Theorem maskName_of_words :
  forall (isWhiteSpace : ascii -> bool) (toUpperCase : string -> string)
         (lead trail w : string) (more : list (string * string)),
    blank isWhiteSpace lead -> blank isWhiteSpace trail ->
    word isWhiteSpace w -> Forall (separated_word isWhiteSpace) more ->
    maskName isWhiteSpace toUpperCase (lead ++ join w more ++ trail) =
      match more with
      | [] => (toUpperCase (charAt w 0) ++ "***")%string
      | _ :: _ =>
          (w ++ " " ++ toUpperCase (charAt (last_word w more) 0) ++ ".")%string
      end.
Proof.
  intros ws up lead trail w more Hlead Htrail Hw Hmore. unfold maskName.
  rewrite name_parts by assumption.
  rewrite nth_last_word. destruct more as [|p more]; reflexivity.
Qed.

Lemma maskName_of_words_witness :
  maskName Ascii.is_space ascii_upper "  john  ronald reuel   tolkien " = "john T."%string.
Proof.
  apply (maskName_of_words Ascii.is_space ascii_upper "  " " " "john"
           [("  ", "ronald"); (" ", "reuel"); ("   ", "tolkien")]%string).
  - reflexivity.
  - reflexivity.
  - split; [discriminate | reflexivity].
  - repeat constructor; discriminate.
Defined.

(** X24. What a masked name hides: two names of several words with the same
    first word and the same first character of the last word are masked
    alike, and so are two one-word names with the same first character; the
    rest of the last word never shows. *)
Theorem maskName_hides_the_rest :
  forall (isWhiteSpace : ascii -> bool) (toUpperCase : string -> string)
         (w w1 w2 : string) (p1 p2 : string * string) (more1 more2 : list (string * string)),
    word isWhiteSpace w -> word isWhiteSpace w1 -> word isWhiteSpace w2 ->
    Forall (separated_word isWhiteSpace) (p1 :: more1) ->
    Forall (separated_word isWhiteSpace) (p2 :: more2) ->
    (charAt (last_word w (p1 :: more1)) 0 = charAt (last_word w (p2 :: more2)) 0 ->
       maskName isWhiteSpace toUpperCase (join w (p1 :: more1)) =
       maskName isWhiteSpace toUpperCase (join w (p2 :: more2))) /\
    (charAt w1 0 = charAt w2 0 ->
       maskName isWhiteSpace toUpperCase w1 = maskName isWhiteSpace toUpperCase w2).
Proof.
  intros ws up w w1 w2 p1 p2 more1 more2 Hw Hw1 Hw2 H1 H2.
  assert (Hparts : forall v more, word ws v -> Forall (separated_word ws) more ->
            split_whitespace ws (trim ws (join v more)) = v :: map snd more).
  { intros v more Hv Hm.
    rewrite <- (name_parts ws EmptyString EmptyString v more) by (assumption || reflexivity).
    rewrite append_nil_r. reflexivity. }
  split.
  - intros Hsame. unfold maskName.
    rewrite (Hparts w (p1 :: more1)), (Hparts w (p2 :: more2)) by assumption.
    rewrite !nth_last_word, Hsame. reflexivity.
  - intros Hsame. unfold maskName.
    change w1 with (join w1 []). change w2 with (join w2 []).
    rewrite (Hparts w1 [] Hw1), (Hparts w2 [] Hw2) by constructor.
    cbn. rewrite Hsame. reflexivity.
Qed.

Lemma maskName_hides_the_rest_witness :
  maskName Ascii.is_space ascii_upper "john tolkien" =
  maskName Ascii.is_space ascii_upper "john   q  taylor".
Proof.
  apply (proj1 (maskName_hides_the_rest Ascii.is_space ascii_upper
           "john" "x" "x" (" ", "tolkien") ("   ", "q") [] [("  ", "taylor")]
           ltac:(split; [discriminate | reflexivity])
           ltac:(split; [discriminate | reflexivity])
           ltac:(split; [discriminate | reflexivity])
           ltac:(repeat constructor; discriminate)
           ltac:(repeat constructor; discriminate))%string).
  reflexivity.
Defined.

(** X25. An empty name, or one of white space only, is masked as the
    upper-cased empty string followed by three stars. *)
Theorem maskName_blank :
  forall (isWhiteSpace : ascii -> bool) (toUpperCase : string -> string) (name : string),
    blank isWhiteSpace name ->
    maskName isWhiteSpace toUpperCase name = (toUpperCase "" ++ "***")%string.
Proof.
  intros ws up name Hb. unfold maskName. rewrite trim_blank by exact Hb. reflexivity.
Qed.

Lemma maskName_blank_witness :
  blank Ascii.is_space "   " /\ maskName Ascii.is_space ascii_upper "   " = "***"%string.
Proof.
  split; [reflexivity|].
  apply (maskName_blank Ascii.is_space ascii_upper "   "). reflexivity.
Defined.

(** ** The SSE route *)

Lemma sse_run_cons (step : SseStep) (steps : list SseStep) (srv : SseServer) :
  sse_run (step :: steps) srv = sse_run steps (sse_step srv step).
Proof. reflexivity. Qed.

Lemma sse_wf_step (srv : SseServer) (step : SseStep) :
  emitter_wf (sse_emitter srv) -> emitter_wf (sse_emitter (sse_step srv step)).
Proof.
  intros Hwf. destruct step as [a c|c|c|a event data|c]; cbn [sse_step].
  - apply (emitter_wf_step _ (Subscribe a c)), Hwf.
  - destruct (sse_open srv !! c) as [a|]; [|exact Hwf].
    apply (emitter_wf_step _ (Unsubscribe a c)), Hwf.
  - destruct (sse_open srv !! c); exact Hwf.
  - apply (emitter_wf_step _ (Emit a (event, data) (sse_throws srv))), Hwf.
  - exact Hwf.
Qed.

Lemma sse_wf_run (steps : list SseStep) (srv : SseServer) :
  emitter_wf (sse_emitter srv) -> emitter_wf (sse_emitter (sse_run steps srv)).
Proof.
  revert srv. induction steps as [|step steps IH]; intros srv Hwf; [exact Hwf|].
  rewrite sse_run_cons. apply IH, sse_wf_step, Hwf.
Qed.

Lemma delivered_absent {E} (l : Listener) (log : list (Call E)) :
  filter (fun c => callee c = l) log = [] -> delivered l log = [].
Proof. unfold delivered. intros ->. reflexivity. Qed.

Lemma delivered_other {E} (l : Listener) (c : Call E) :
  callee c <> l -> delivered l [c] = [].
Proof.
  intros Hne. apply delivered_absent. rewrite filter_cons_False by exact Hne. reflexivity.
Qed.

Lemma delivered_own {E} (l : Listener) (e : E) :
  delivered l [mkCall l e Returned] = [e].
Proof.
  unfold delivered. rewrite filter_cons_True by reflexivity.
  cbn [filter]. rewrite filter_cons_True by reflexivity. reflexivity.
Qed.

Lemma sse_connect (a : string) (c : Listener) (srv : SseServer) :
  sse_closed c srv ->
  sse_connected a c (sse_step srv (Connect a c)) /\
  calls (sse_emitter (sse_step srv (Connect a c))) = calls (sse_emitter srv).
Proof.
  intros [_ Hout]. split; [|reflexivity]. split; cbn [sse_step sse_open sse_emitter].
  - apply lookup_insert_eq.
  - intros a'. rewrite subscribers_subscribe. case_bool_decide as Ha.
    + rewrite set_add_elem. split; [intros _; exact Ha | auto].
    + split; [intros Hin; exfalso; exact (Hout a' Hin) | intros; contradiction].
Qed.

Lemma sse_connect_writable (a : string) (c : Listener) (srv : SseServer) :
  sse_writable a srv -> sse_writable a (sse_step srv (Connect a c)).
Proof.
  intros Hw x. cbn [sse_step sse_emitter sse_cancelled].
  rewrite subscribers_subscribe, bool_decide_true by reflexivity.
  rewrite set_add_elem, elem_of_difference, elem_of_singleton.
  intros [->|Hx] [Hin Hne]; [congruence | exact (Hw x Hx Hin)].
Qed.

Lemma sse_abort (a : string) (c : Listener) (srv : SseServer) :
  sse_connected a c srv ->
  sse_closed c (sse_step srv (Abort c)) /\
  calls (sse_emitter (sse_step srv (Abort c))) = calls (sse_emitter srv).
Proof.
  intros [Hopen Hsub]. cbn [sse_step]. rewrite Hopen. cbn [sse_emitter sse_open].
  split; [|apply calls_unsubscribe]. split; cbn [sse_emitter sse_open];
    [apply lookup_delete_eq|].
  intros a'. rewrite subscribers_unsubscribe. case_bool_decide as Ha.
  - rewrite set_delete_elem. intros [Hne _]. congruence.
  - rewrite Hsub. exact Ha.
Qed.

(** An open connection stays open. *)
Lemma sse_connected_step (a : string) (c : Listener) (srv : SseServer) (step : SseStep) :
  sse_connected a c srv -> leaves_open c step ->
  sse_connected a c (sse_step srv step).
Proof.
  intros [Hopen Hsub] Hstep.
  destruct step as [a' c'|c'|c'|a' event data|c']; cbn [sse_step]; cbn in Hstep.
  - split; cbn [sse_open sse_emitter].
    + rewrite lookup_insert_ne by congruence. exact Hopen.
    + intros b. rewrite subscribers_subscribe. case_bool_decide as Hb; [|apply Hsub].
      subst b. rewrite set_add_elem, <- Hsub.
      split; [intros [?|?]; [congruence | assumption] | auto].
  - destruct (sse_open srv !! c') as [b|] eqn:Hc'; [|split; assumption].
    split; cbn [sse_open sse_emitter].
    + rewrite lookup_delete_ne by congruence. exact Hopen.
    + intros b'. rewrite subscribers_unsubscribe. case_bool_decide as Hb; [|apply Hsub].
      subst b'. rewrite set_delete_elem, <- Hsub. split; [intros [_ ?]; assumption | auto].
  - destruct (sse_open srv !! c'); split; assumption.
  - split; cbn [sse_emitter sse_open]; [exact Hopen|].
    intros b. rewrite subscribers_emit. apply Hsub.
  - split; assumption.
Qed.

Lemma sse_connected_run (a : string) (c : Listener) (steps : list SseStep) (srv : SseServer) :
  sse_connected a c srv -> Forall (leaves_open c) steps ->
  sse_connected a c (sse_run steps srv).
Proof.
  revert srv. induction steps as [|step steps IH]; intros srv Hconn Hsteps; [exact Hconn|].
  inversion Hsteps as [|? ? Hstep Hrest]; subst.
  rewrite sse_run_cons. apply IH; [|exact Hrest]. apply sse_connected_step; assumption.
Qed.

(** Streams stay writable when none is cancelled. *)
Lemma sse_writable_step (a : string) (srv : SseServer) (step : SseStep) :
  sse_writable a srv -> keeps_streams step -> sse_writable a (sse_step srv step).
Proof.
  intros Hw Hstep x.
  destruct step as [a' c'|c'|c'|a' event data|c']; cbn [sse_step]; cbn in Hstep.
  - cbn [sse_emitter sse_cancelled]. rewrite subscribers_subscribe.
    rewrite elem_of_difference, elem_of_singleton.
    case_bool_decide as Ha.
    + subst a'. rewrite set_add_elem. intros [->|Hx] [Hin Hne]; [congruence | exact (Hw x Hx Hin)].
    + intros Hx [Hin _]. exact (Hw x Hx Hin).
  - destruct (sse_open srv !! c') as [b|]; [|apply Hw].
    cbn [sse_emitter sse_cancelled]. rewrite subscribers_unsubscribe.
    case_bool_decide as Ha; [|apply Hw].
    subst b. rewrite set_delete_elem. intros [_ Hx]. exact (Hw x Hx).
  - destruct (sse_open srv !! c'); apply Hw.
  - cbn [sse_emitter sse_cancelled]. rewrite subscribers_emit. apply Hw.
  - contradiction.
Qed.

(** What one step sends on an open connection while the streams of its
    auction are writable. *)
Lemma sse_delivered_step (a : string) (c : Listener) (srv : SseServer) (step : SseStep) :
  emitter_wf (sse_emitter srv) ->
  sse_connected a c srv -> sse_writable a srv ->
  leaves_open c step -> keeps_streams step ->
  delivered c (calls (sse_emitter (sse_step srv step))) =
    delivered c (calls (sse_emitter srv)) ++ sse_sent a c [step].
Proof.
  intros Hwf [Hopen Hsub] Hw Hstep Hkeep.
  assert (Hc : c ∈ subscribers a (sse_emitter srv)) by (apply Hsub; reflexivity).
  destruct step as [a' c'|c'|c'|a' event data|c']; cbn [sse_step sse_sent];
    cbn in Hstep, Hkeep.
  - rewrite app_nil_r. reflexivity.
  - rewrite app_nil_r. destruct (sse_open srv !! c') as [b|]; [|reflexivity].
    cbn [sse_emitter]. rewrite calls_unsubscribe. reflexivity.
  - case_bool_decide as Hcc.
    + subst c'. rewrite Hopen. cbn [sse_emitter sse_send calls].
      rewrite delivered_app. f_equal. unfold sse_throws.
      rewrite bool_decide_false by (apply Hw, Hc). apply delivered_own.
    + rewrite app_nil_r.
      destruct (sse_open srv !! c') as [b|]; [|reflexivity].
      cbn [sse_emitter sse_send calls].
      rewrite delivered_app, delivered_other by (cbn; congruence). apply app_nil_r.
  - cbn [sse_emitter].
    assert (Hcalls :
      calls (snd (emit (sse_throws srv) a' ((event, data) : SSE) (sse_emitter srv))) =
      calls (sse_emitter srv) ++
      snd (forEach_call (sse_throws srv) (subscribers a' (sse_emitter srv)) ((event, data) : SSE)))
      by apply emit_spec.
    etrans; [exact (f_equal (delivered c) Hcalls)|].
    rewrite delivered_app. f_equal.
    destruct (decide (a' = a)) as [->|Ha].
    + rewrite bool_decide_true by reflexivity.
      rewrite forEach_call_quiet
        by (intros x Hx; unfold sse_throws; apply bool_decide_false, Hw, Hx).
      cbn [snd]. unfold delivered.
      rewrite calls_to_present by (apply emitter_wf_subscribers, Hwf || exact Hc).
      rewrite filter_cons_True by reflexivity. reflexivity.
    + rewrite bool_decide_false by exact Ha.
      apply delivered_absent, forEach_call_absent. rewrite Hsub. exact Ha.
  - contradiction.
Qed.

Lemma sse_sent_cons (a : string) (c : Listener) (step : SseStep) (steps : list SseStep) :
  sse_sent a c (step :: steps) = sse_sent a c [step] ++ sse_sent a c steps.
Proof.
  destruct step as [a' c'|c'|c'|a' event data|c']; cbn [sse_sent]; try reflexivity;
    case_bool_decide; reflexivity.
Qed.

Lemma sse_delivered_run (a : string) (c : Listener) (steps : list SseStep) (srv : SseServer) :
  emitter_wf (sse_emitter srv) ->
  sse_connected a c srv -> sse_writable a srv ->
  Forall (leaves_open c) steps -> Forall keeps_streams steps ->
  delivered c (calls (sse_emitter (sse_run steps srv))) =
    delivered c (calls (sse_emitter srv)) ++ sse_sent a c steps.
Proof.
  revert srv. induction steps as [|step steps IH]; intros srv Hwf Hconn Hw Hsteps Hkeep.
  - cbn. rewrite app_nil_r. reflexivity.
  - inversion Hsteps as [|? ? Hstep Hrest]; subst.
    inversion Hkeep as [|? ? Hk Hkrest]; subst.
    rewrite sse_run_cons, IH;
      [| apply sse_wf_step, Hwf | apply sse_connected_step; assumption
       | apply sse_writable_step; assumption | exact Hrest | exact Hkrest ].
    rewrite (sse_delivered_step a c srv step) by assumption.
    rewrite (sse_sent_cons a c step steps), app_assoc. reflexivity.
Qed.

(** Nothing is sent on a closed connection. *)
Lemma sse_closed_step (c : Listener) (srv : SseServer) (step : SseStep) :
  sse_closed c srv -> other_connection c step ->
  sse_closed c (sse_step srv step) /\
  delivered c (calls (sse_emitter (sse_step srv step))) = delivered c (calls (sse_emitter srv)).
Proof.
  intros [Hnone Hout] Hstep.
  destruct step as [a' c'|c'|c'|a' event data|c']; cbn [sse_step]; cbn in Hstep.
  - split; [|reflexivity]. split; cbn [sse_open sse_emitter].
    + rewrite lookup_insert_ne by congruence. exact Hnone.
    + intros b. rewrite subscribers_subscribe. case_bool_decide as Hb; [|apply Hout].
      subst b. rewrite set_add_elem. intros [?|Hin]; [congruence | exact (Hout a' Hin)].
  - destruct (sse_open srv !! c') as [b|] eqn:Hc'; [|split; [split; assumption | reflexivity]].
    cbn [sse_emitter sse_open]. split; [|rewrite calls_unsubscribe; reflexivity].
    split; cbn [sse_open sse_emitter].
    + destruct (decide (c' = c)) as [->|Hne]; [congruence|].
      rewrite lookup_delete_ne by congruence. exact Hnone.
    + intros b'. rewrite subscribers_unsubscribe. case_bool_decide as Hb; [|apply Hout].
      subst b'. rewrite set_delete_elem. intros [_ Hin]. exact (Hout b Hin).
  - destruct (sse_open srv !! c') as [b|] eqn:Hc'; [|split; [split; assumption | reflexivity]].
    cbn [sse_emitter sse_open sse_send calls]. split; [split; assumption|].
    rewrite delivered_app, delivered_other by (cbn; congruence). apply app_nil_r.
  - cbn [sse_emitter sse_open]. split.
    + split; cbn [sse_emitter sse_open]; [exact Hnone|].
      intros b. rewrite subscribers_emit. apply Hout.
    + assert (Hcalls :
        calls (snd (emit (sse_throws srv) a' ((event, data) : SSE) (sse_emitter srv))) =
        calls (sse_emitter srv) ++
        snd (forEach_call (sse_throws srv) (subscribers a' (sse_emitter srv))
               ((event, data) : SSE)))
        by apply emit_spec.
      etrans; [exact (f_equal (delivered c) Hcalls)|].
      rewrite delivered_app, (delivered_absent c (snd _))
        by (apply forEach_call_absent, Hout).
      apply app_nil_r.
  - split; [split; assumption | reflexivity].
Qed.

Lemma sse_closed_run (c : Listener) (steps : list SseStep) (srv : SseServer) :
  sse_closed c srv -> Forall (other_connection c) steps ->
  sse_closed c (sse_run steps srv) /\
  delivered c (calls (sse_emitter (sse_run steps srv))) = delivered c (calls (sse_emitter srv)).
Proof.
  revert srv. induction steps as [|step steps IH]; intros srv Hclosed Hsteps.
  - split; [exact Hclosed | reflexivity].
  - inversion Hsteps as [|? ? Hstep Hrest]; subst.
    destruct (sse_closed_step c srv step Hclosed Hstep) as (Hclosed' & Hobs').
    destruct (IH (sse_step srv step) Hclosed' Hrest) as (Hc & Hobs).
    rewrite sse_run_cons. split; [exact Hc|]. rewrite Hobs, Hobs'. reflexivity.
Qed.

Lemma sse_start_closed (c : Listener) : sse_closed c sse_start.
Proof.
  split; [apply lookup_empty|].
  intros a. unfold subscribers. cbn. rewrite lookup_empty. apply not_elem_of_nil.
Qed.

Lemma sse_start_writable (a : string) : sse_writable a sse_start.
Proof.
  intros c. unfold subscribers. cbn. rewrite lookup_empty. intros Hc. inversion Hc.
Qed.

(** X26. While a connection is open, and as long as no listener of its
    auction has lost its stream (none when the connection is made, and no
    stream is cancelled after that), its stream carries, in order and nothing
    else, one chunk [event: <name>\ndata: <json>\n\n] for every event
    published to its auction and one ping chunk for every heartbeat of its
    own, whatever else other connections do and whatever is published to
    other auctions. *)
Theorem sse_stream_while_open :
  forall (JSON_stringify : SSEData -> string) (history steps : list SseStep)
         (a : string) (c : Listener),
    let srv := sse_run history sse_start in
    sse_closed c srv ->
    sse_writable a srv ->
    Forall (leaves_open c) steps ->
    Forall keeps_streams steps ->
    sse_stream JSON_stringify c (sse_run steps (sse_step srv (Connect a c))) =
      sse_stream JSON_stringify c srv ++
      map (fun e => sse_chunk JSON_stringify (fst e) (snd e)) (sse_sent a c steps).
Proof.
  intros JSON_stringify history steps a c srv Hclosed Hw Hsteps Hkeep.
  assert (Hwf : emitter_wf (sse_emitter srv)) by apply sse_wf_run, emitter_wf_new.
  destruct (sse_connect a c srv Hclosed) as (Hconn & Hcalls).
  unfold sse_stream.
  rewrite (sse_delivered_run a c steps _ (sse_wf_step srv (Connect a c) Hwf) Hconn
             (sse_connect_writable a c srv Hw) Hsteps Hkeep).
  rewrite Hcalls, map_app. reflexivity.
Qed.

Lemma sse_stream_while_open_witness :
  sse_stream (fun _ => "{}"%string) 1%nat
    (sse_run [Publish "auction-1" "status" PingData; Connect "auction-2" 2%nat;
              Publish "auction-2" "status" PingData; Heartbeat 1%nat]
       (sse_step (sse_run [Connect "auction-2" 3%nat; Cancel 3%nat] sse_start)
          (Connect "auction-1" 1%nat))) =
  [sse_chunk (fun _ => "{}"%string) "status" PingData;
   sse_chunk (fun _ => "{}"%string) "ping" PingData].
Proof.
  apply (sse_stream_while_open (fun _ => "{}"%string)
           [Connect "auction-2" 3%nat; Cancel 3%nat]
           [Publish "auction-1" "status" PingData; Connect "auction-2" 2%nat;
            Publish "auction-2" "status" PingData; Heartbeat 1%nat]
           "auction-1" 1%nat).
  - apply sse_closed_run; [apply sse_start_closed | repeat constructor; discriminate].
  - intros conn Hconn. vm_compute in Hconn. inversion Hconn.
  - repeat constructor. cbn. discriminate.
  - repeat constructor.
Defined.

(** X27. After the request is aborted nothing more is enqueued on its stream:
    neither later events of its auction nor heartbeats (the timer is
    cleared), whatever else happens on the server. *)
Theorem sse_stream_after_abort :
  forall (JSON_stringify : SSEData -> string) (history steps later : list SseStep)
         (a : string) (c : Listener),
    let srv := sse_run history sse_start in
    sse_closed c srv ->
    Forall (leaves_open c) steps ->
    Forall (other_connection c) later ->
    let before := sse_run steps (sse_step srv (Connect a c)) in
    let after_abort := sse_run later (sse_step before (Abort c)) in
    sse_stream JSON_stringify c after_abort = sse_stream JSON_stringify c before /\
    sse_closed c after_abort.
Proof.
  intros JSON_stringify history steps later a c srv Hclosed Hsteps Hlater before after_abort.
  destruct (sse_connect a c srv Hclosed) as (Hconn & _).
  pose proof (sse_connected_run a c steps _ Hconn Hsteps) as Hconn'.
  fold before in Hconn'.
  destruct (sse_abort a c before Hconn') as (Hclosed' & Hcalls).
  destruct (sse_closed_run c later _ Hclosed' Hlater) as (Hfinal & Hobs).
  fold after_abort in Hobs, Hfinal.
  split; [|exact Hfinal].
  unfold sse_stream. rewrite Hobs, Hcalls. reflexivity.
Qed.

Lemma sse_stream_after_abort_witness :
  sse_stream (fun _ => "{}"%string) 1%nat
    (sse_run [Publish "auction-1" "status" PingData; Heartbeat 1%nat]
       (sse_step
          (sse_run [Publish "auction-1" "status" PingData]
             (sse_step (sse_run [] sse_start) (Connect "auction-1" 1%nat)))
          (Abort 1%nat))) =
  [sse_chunk (fun _ => "{}"%string) "status" PingData].
Proof.
  apply (proj1 (sse_stream_after_abort (fun _ => "{}"%string) []
           [Publish "auction-1" "status" PingData]
           [Publish "auction-1" "status" PingData; Heartbeat 1%nat]
           "auction-1" 1%nat (sse_start_closed 1%nat)
           ltac:(repeat constructor) ltac:(repeat constructor))).
Defined.

(** A round with a throwing listener does not reach the listeners after
    it. *)
Lemma forEach_call_blocked {E} (throws : Listener -> bool) (ev : E)
    (before : list Listener) (l : Listener) (after : list Listener) (x : Listener) :
  throws l = true -> NoDup (before ++ l :: after) -> x ∈ after ->
  fst (forEach_call throws (before ++ l :: after) ev) = Thrown /\
  filter (fun c => callee c = x)
    (snd (forEach_call throws (before ++ l :: after) ev)) = [].
Proof.
  intros Hl Hnd Hx. induction before as [|y before IH]; cbn [app] in *.
  - rewrite forEach_call_cons, Hl. cbn [fst snd]. split; [reflexivity|].
    apply NoDup_cons in Hnd as [Hnin _].
    rewrite filter_cons_False; [reflexivity|]. cbn. intros ->. contradiction.
  - apply NoDup_cons in Hnd as [Hy Hnd].
    assert (Hne : y <> x).
    { intros ->. apply Hy, elem_of_app. right. right. exact Hx. }
    rewrite forEach_call_cons. destruct (throws y); cbn [fst snd].
    + split; [reflexivity|].
      rewrite filter_cons_False by (cbn; congruence). reflexivity.
    + destruct (IH Hnd) as (Hf & Hs). split; [exact Hf|].
      rewrite filter_cons_False by (cbn; congruence). exact Hs.
Qed.

(** X30. A stream that its consumer has cancelled while its request has not
    been aborted blocks the connections made after it for the same auction:
    publishing to the auction throws, and nothing of the event is enqueued on
    their streams, open and writable as they may be. *)
Theorem sse_cancelled_stream_blocks_later_ones :
  forall (JSON_stringify : SSEData -> string) (history : list SseStep)
         (a event : string) (data : SSEData)
         (before after : list Listener) (c1 c2 : Listener),
    let srv := sse_run history sse_start in
    subscribers a (sse_emitter srv) = before ++ c1 :: after ->
    c1 ∈ sse_cancelled srv ->
    c2 ∈ after ->
    fst (emit (sse_throws srv) a (event, data) (sse_emitter srv)) = Thrown /\
    sse_stream JSON_stringify c2 (sse_step srv (Publish a event data)) =
      sse_stream JSON_stringify c2 srv.
Proof.
  intros JSON_stringify history a event data before after c1 c2 srv Hsubs Hc1 Hc2.
  assert (Hwf : emitter_wf (sse_emitter srv)) by apply sse_wf_run, emitter_wf_new.
  pose proof (emitter_wf_subscribers _ a Hwf) as Hnd. rewrite Hsubs in Hnd.
  assert (Hthrows : sse_throws srv c1 = true) by (apply bool_decide_eq_true_2, Hc1).
  destruct (forEach_call_blocked (sse_throws srv) ((event, data) : SSE)
              before c1 after c2 Hthrows Hnd Hc2) as (Hend & Hnone).
  destruct (emit_spec (sse_throws srv) a ((event, data) : SSE) (sse_emitter srv))
    as (_ & Hcalls & Hfst).
  rewrite Hsubs in Hcalls, Hfst.
  split; [etrans; [exact Hfst | exact Hend]|].
  unfold sse_stream. cbn [sse_step sse_emitter]. f_equal.
  etrans; [exact (f_equal (delivered c2) Hcalls)|].
  rewrite delivered_app, (delivered_absent c2 (snd _)) by exact Hnone.
  apply app_nil_r.
Qed.

Lemma sse_cancelled_stream_blocks_later_ones_witness :
  sse_stream (fun _ => "{}"%string) 2%nat
    (sse_step
       (sse_run [Connect "auction-1" 1%nat; Connect "auction-1" 2%nat; Cancel 1%nat]
          sse_start)
       (Publish "auction-1" "bid" (BidData sample_bid_event))) = [].
Proof.
  apply (proj2 (sse_cancelled_stream_blocks_later_ones (fun _ => "{}"%string)
           [Connect "auction-1" 1%nat; Connect "auction-1" 2%nat; Cancel 1%nat]
           "auction-1" "bid" (BidData sample_bid_event) [] [2%nat] 1%nat 2%nat
           eq_refl
           ltac:(apply (bool_decide_unpack _); vm_compute; exact I)
           ltac:(apply (bool_decide_unpack _); vm_compute; exact I))).
Defined.
